(** * The WebSocket signaling relay of [routes.ts]

    A shallow embedding of the relay set up at the end of [registerRoutes]
    (the [connectedClients] map, the ['connection'], ['pong'], ['message']
    and ['close'] handlers, and the [pingInterval] sweep), with the
    properties of its specification proved about it.

    The relay runs on one event loop, so it is modelled as a state
    machine: every handler is a function from the relay state to the next
    state and the list of calls it made on sockets. *)

From stdpp Require Import gmap strings list fin_maps sorting.

Set Warnings "-register-all".

Set Default Proof Using "Type".
Open Scope string_scope.
Open Scope list_scope.

(** ** JSON data and JavaScript values *)

(** What [JSON.parse] returns.  A number is kept as the bit pattern of its
    IEEE-754 binary64 value; the fields of an object are its
    properties, each name once, in the order in which JavaScript lists
    them, which is the order [JSON.stringify] writes them in. *)
Inductive json : Type :=
  | JNull
  | JBool (b : bool)
  | JNum (bits : N)
  | JStr (s : string)
  | JArr (items : list json)
  | JObj (fields : list (string * json)).

(** The values the relay stores and compares.  An object or array counts
    by its identity, the address it was allocated at. *)
Inductive value : Type :=
  | VUndefined
  | VNull
  | VBool (b : bool)
  | VNum (bits : N)
  | VStr (s : string)
  | VRef (addr : nat).

#[global] Instance value_eq_dec : EqDecision value.
Proof. solve_decision. Defined.

#[global] Instance value_countable : Countable value.
Proof.
  refine (inj_countable'
    (λ v, match v with
          | VUndefined => inl false
          | VNull => inl true
          | VBool b => inr (inl b)
          | VNum n => inr (inr (inl n))
          | VStr s => inr (inr (inr (inl s)))
          | VRef a => inr (inr (inr (inr a)))
          end)
    (λ x, match x with
          | inl false => VUndefined
          | inl true => VNull
          | inr (inl b) => VBool b
          | inr (inr (inl n)) => VNum n
          | inr (inr (inr (inl s))) => VStr s
          | inr (inr (inr (inr a))) => VRef a
          end) _).
  by intros [].
Defined.

(** The value of what a property read returned ([None] is [undefined])
    when an object or array there was allocated at [addr].  One address
    per message is enough: the handler uses at most one property of a
    message as a key. *)
Definition to_value (addr : nat) (j : option json) : value :=
  match j with
  | None => VUndefined
  | Some JNull => VNull
  | Some (JBool b) => VBool b
  | Some (JNum n) => VNum n
  | Some (JStr s) => VStr s
  | Some (JArr _) | Some (JObj _) => VRef addr
  end.

Definition num_is_zero (bits : N) : bool :=
  (bits =? 0)%N || (bits =? 2 ^ 63)%N.

Definition num_is_nan (bits : N) : bool :=
  (N.land (N.shiftr bits 52) 2047 =? 2047)%N
  && negb (N.land bits (2 ^ 52 - 1) =? 0)%N.

(** JavaScript's ToBoolean. *)
Definition truthy (v : value) : bool :=
  match v with
  | VUndefined | VNull => false
  | VBool b => b
  | VNum n => negb (num_is_zero n || num_is_nan n)
  | VStr EmptyString => false
  | VStr _ => true
  | VRef _ => true
  end.

(** The key a [Map] files a value under (SameValueZero): the two zeros
    are one key and so are all NaNs. *)
Definition map_key (v : value) : value :=
  match v with
  | VNum n =>
      if num_is_zero n then VNum 0
      else if num_is_nan n then VNum (2047 * 2 ^ 52 + 2 ^ 51)
      else VNum n
  | _ => v
  end.

(** [a === b] where [b] is a string literal. *)
Definition strict_eq_str (a : value) (b : string) : bool :=
  match a with
  | VStr s => String.eqb s b
  | _ => false
  end.

(** ** Completions: a result or a thrown exception *)

Inductive exn : Type := SyntaxError | TypeError.

Inductive completion (A : Type) : Type :=
  | Normal (a : A)
  | Throw (e : exn).
Arguments Normal {A} a.
Arguments Throw {A} e.

#[global] Instance completion_ret : MRet completion := λ A a, Normal a.
#[global] Instance completion_bind : MBind completion := λ A B f m,
  match m with
  | Normal a => f a
  | Throw e => Throw e
  end.

Fixpoint assoc (name : string) (fields : list (string * json)) : option json :=
  match fields with
  | [] => None
  | (k, v) :: rest => if String.eqb k name then Some v else assoc name rest
  end.

(** [data.name] for the four names the relay reads ([type], [userId],
    [from], [to]): reading a property of [null] throws; a primitive or an
    array has none of these properties. *)
Definition get_prop (data : json) (name : string) : completion (option json) :=
  match data with
  | JNull => Throw TypeError
  | JObj fields => Normal (assoc name fields)
  | _ => Normal None
  end.

(** ** Sockets and the relay state *)

Inductive ready_state : Type := CONNECTING | OPEN | CLOSING | CLOSED.

#[global] Instance ready_state_eq_dec : EqDecision ready_state.
Proof. solve_decision. Defined.

(** [interface WebSocketClient extends WebSocket]: the socket's own
    [readyState] and the two fields the relay adds. *)
Record WebSocketClient : Type := {
  readyState : ready_state;
  userId : value;
  isAlive : option bool
}.

Definition set_readyState (r : ready_state) (ws : WebSocketClient) :=
  {| readyState := r; userId := userId ws; isAlive := isAlive ws |}.
Definition set_userId (u : value) (ws : WebSocketClient) :=
  {| readyState := readyState ws; userId := u; isAlive := isAlive ws |}.
Definition set_isAlive (a : option bool) (ws : WebSocketClient) :=
  {| readyState := readyState ws; userId := userId ws; isAlive := a |}.

(** The state of the relay.  [sockets] holds every socket the server has
    accepted, in order of arrival; a socket is named by its index, which
    stands for the reference to the socket object.  [connectedClients] is
    the [Map] of the source, from the registered value to the socket.
    [heap_next] is the address the next parsed message is allocated at. *)
Record relay : Type := {
  sockets : list WebSocketClient;
  connectedClients : gmap value nat;
  heap_next : nat
}.

Definition with_sockets (l : list WebSocketClient) (st : relay) : relay :=
  {| sockets := l; connectedClients := connectedClients st;
     heap_next := heap_next st |}.
Definition with_clients (m : gmap value nat) (st : relay) : relay :=
  {| sockets := sockets st; connectedClients := m;
     heap_next := heap_next st |}.
Definition alloc (st : relay) : relay :=
  {| sockets := sockets st; connectedClients := connectedClients st;
     heap_next := S (heap_next st) |}.

Definition update_socket (c : nat) (f : WebSocketClient → WebSocketClient)
    (st : relay) : relay :=
  with_sockets (alter f c (sockets st)) st.

(** [connectedClients.set(v, c)], [.get(v)] and [.delete(v)]. *)
Definition clients_set (v : value) (c : nat) (st : relay) : relay :=
  with_clients (<[map_key v := c]> (connectedClients st)) st.
Definition clients_get (v : value) (st : relay) : option nat :=
  connectedClients st !! map_key v.
Definition clients_delete (v : value) (st : relay) : relay :=
  with_clients (delete (map_key v) (connectedClients st)) st.

(** A call the relay makes on a socket. *)
Inductive call : Type :=
  | Send (text : string)       (* [ws.send(text)] *)
  | SendJSON (obj : json)      (* [ws.send(JSON.stringify(obj))] *)
  | Ping                       (* [ws.ping()] *)
  | Terminate.                 (* [ws.terminate()] *)

Definition effect : Type := nat * call.

(** The state at server start: no socket, an empty map. *)
Definition initial : relay :=
  {| sockets := []; connectedClients := ∅; heap_next := 0 |}.

Definition is_open (st : relay) (c : nat) : bool :=
  match sockets st !! c with
  | Some ws => bool_decide (readyState ws = OPEN)
  | None => false
  end.

(** ** The handlers *)

(** [wss.on('connection', ...)]: the new socket is open and
    [ws.isAlive = true]. *)
Definition on_connection (st : relay) : relay :=
  with_sockets
    (sockets st ++ [{| readyState := OPEN; userId := VUndefined; isAlive := Some true |}])
    st.

(** [ws.on('pong', ...)]. *)
Definition on_pong (c : nat) (st : relay) : relay :=
  update_socket c (set_isAlive (Some true)) st.

(** The object of the reply when the recipient cannot be reached;
    [JSON.stringify] leaves out a property whose value is [undefined].
    What it writes of the other values is [written], below. *)
Definition error_envelope (from : option json) : json :=
  JObj ([("type", JStr "error");
         ("message", JStr "Recipient not available");
         ("from", JStr "server")]
        ++ match from with Some f => [("to", f)] | None => [] end).

(** The two branches of the message handler, for socket [c]. *)
Definition register (c : nat) (uid : value) (st : relay) : relay :=
  clients_set uid c (update_socket c (set_userId uid) st).

Definition signal (c : nat) (message : string) (from : option json)
    (to : value) (st : relay) : list effect :=
  let reply :=
    if is_open st c then [(c, SendJSON (error_envelope from))] else [] in
  match clients_get to st with
  | Some r => if is_open st r then [(r, Send message)] else reply
  | None => reply
  end.

(** [ws.on('close', ...)]: the state it leaves.  The [console.log] that
    follows the delete is not part of it; it changes nothing, and throws
    only for a [userId] that is an object with no string form. *)
Definition on_close (c : nat) (st : relay) : relay :=
  match sockets st !! c with
  | Some ws => if truthy (userId ws) then clients_delete (userId ws) st else st
  | None => st
  end.

(** [ws.terminate()]: nothing on a closed socket, otherwise the socket
    is destroyed and is closing until its ['close'] event. *)
Definition terminate (c : nat) (st : relay) : relay :=
  update_socket c
    (λ ws, if decide (readyState ws = CLOSED) then ws
           else set_readyState CLOSING ws) st.

(** A socket is attached, and takes events, until its ['close'] event. *)
Definition attached (st : relay) (c : nat) : bool :=
  match sockets st !! c with
  | Some ws => bool_decide (readyState ws ≠ CLOSED)
  | None => false
  end.

(** [wss.clients]: the attached sockets, in order of arrival. *)
Definition wss_clients (st : relay) : list nat :=
  filter (λ c, attached st c) (seq 0 (length (sockets st))).

(** The callback of [wss.clients.forEach] in [pingInterval]. *)
Definition sweep_client (c : nat) (st : relay) : relay * list effect :=
  match sockets st !! c with
  | Some ws =>
      if decide (isAlive ws = Some false) then
        let st1 :=
          if truthy (userId ws) then clients_delete (userId ws) st else st in
        (terminate c st1, [(c, Terminate)])
      else
        (update_socket c (set_isAlive (Some false)) st, [(c, Ping)])
  | None => (st, [])
  end.

Fixpoint for_each (f : nat → relay → relay * list effect)
    (l : list nat) (st : relay) : relay * list effect :=
  match l with
  | [] => (st, [])
  | c :: l' =>
      let r := f c st in
      let r' := for_each f l' r.1 in
      (r'.1, r.2 ++ r'.2)
  end.

(** One firing of [pingInterval]. *)
Definition pingInterval (st : relay) : relay * list effect :=
  for_each sweep_client (wss_clients st) st.

(** ** Events of the event loop

    What the relay is told by the [ws] library: a client connected, a
    frame or a pong arrived on a socket, a socket began to close, the
    ['close'] event of a socket, and the timer.  A socket is open when it
    connects, is closing once the closing handshake has begun or
    [terminate] was called on it, and is closed from its ['close'] event
    on; until that event it stays in [wss.clients] and frames already
    received may still be delivered to it.  A [Message] carries the text
    the handler reads, [message.toString()]; the frames as they arrive
    are in the section on the wire, below. *)

Inductive event : Type :=
  | Connection                          (* a client connected *)
  | Message (c : nat) (message : string)
  | Pong (c : nat)
  | Closing (c : nat)     (* the closing handshake of [c] began *)
  | Close (c : nat)       (* the ['close'] event of [c] *)
  | Tick.                 (* the 30 s timer fired *)

#[global] Instance event_eq_dec : EqDecision event.
Proof. solve_decision. Defined.

Section handlers.
(** [JSON.parse] belongs to the platform: [None] is a thrown
    [SyntaxError]. *)
Variable JSON_parse : string → option json.

Definition parse (message : string) : completion json :=
  match JSON_parse message with
  | Some data => Normal data
  | None => Throw SyntaxError
  end.

(** The body of the [try] block of [ws.on('message', ...)] for socket
    [c]; [addr] is where [data] was allocated.  The four property reads
    are hoisted: a read has no effect and throws exactly when [data] is
    [null], which the first read evaluated, that of [type], decides. *)
Definition message_body (c : nat) (addr : nat) (message : string)
    (st : relay) : completion (relay * list effect) :=
  data ← parse message;
  type ← get_prop data "type";
  uid ← get_prop data "userId";
  from ← get_prop data "from";
  to ← get_prop data "to";
  if strict_eq_str (to_value addr type) "register"
     && truthy (to_value addr uid)
  then Normal (register c (to_value addr uid) st, [])
  else if truthy (to_value addr type) && truthy (to_value addr from)
          && truthy (to_value addr to)
  then Normal (st, signal c message from (to_value addr to) st)
  else Normal (st, []).

(** [ws.on('message', ...)], with [message] the text of the frame
    ([message.toString()]): [JSON.parse] allocates, the body runs under
    [try], the [catch] only logs. *)
Definition on_message (c : nat) (message : string) (st : relay)
    : relay * list effect :=
  let st' := alloc st in
  match message_body c (heap_next st) message st' with
  | Normal r => r
  | Throw _ => (st', [])
  end.

(** One event.  An event of a socket that is not attached cannot
    occur and changes nothing; the socket is [CLOSED] by the time its
    ['close'] handler runs. *)
Definition step (st : relay) (ev : event) : relay * list effect :=
  match ev with
  | Connection => (on_connection st, [])
  | Message c message =>
      if attached st c then on_message c message st else (st, [])
  | Pong c => if attached st c then (on_pong c st, []) else (st, [])
  | Closing c =>
      if is_open st c
      then (update_socket c (set_readyState CLOSING) st, [])
      else (st, [])
  | Close c =>
      if attached st c
      then (on_close c (update_socket c (set_readyState CLOSED) st), [])
      else (st, [])
  | Tick => pingInterval st
  end.

(** The state after a sequence of events, and the calls made. *)
Fixpoint run (evs : list event) (st : relay) : relay * list effect :=
  match evs with
  | [] => (st, [])
  | ev :: evs' =>
      let r := step st ev in
      let r' := run evs' r.1 in
      (r'.1, r.2 ++ r'.2)
  end.
End handlers.

(** ** Frames on the wire

    The [ws] library stands between the network and the handlers.  A
    string of the program is kept as the bytes of its UTF-8 encoding, so
    that a text the relay sends goes out as the bytes it is kept as. *)

(** A data frame, complete: text or binary, and its payload. *)
Record frame : Type := { isBinary : bool; payload : list Byte.byte }.

Definition in_range (lo hi : N) (b : Byte.byte) : bool :=
  (lo <=? Byte.to_N b)%N && (Byte.to_N b <=? hi)%N.

(** The bounds on the second byte of the sequence that begins with
    [b]: narrower after [E0] and [F0] (no overlong form), after [ED] (no
    surrogate) and after [F4] (nothing above U+10FFFF). *)
Definition second_lo (b : Byte.byte) : N :=
  if (Byte.to_N b =? 224)%N then 160%N
  else if (Byte.to_N b =? 240)%N then 144%N else 128%N.
Definition second_hi (b : Byte.byte) : N :=
  if (Byte.to_N b =? 237)%N then 159%N
  else if (Byte.to_N b =? 244)%N then 143%N else 191%N.

(** U+FFFD, the replacement character, in UTF-8. *)
Definition U_FFFD : list Byte.byte := [Byte.xef; Byte.xbf; Byte.xbd].

(** The UTF-8 decoding of [Buffer.prototype.toString]: a well-formed
    sequence is kept; the longest beginning of one that is cut short,
    or a byte that begins none, becomes U+FFFD, and decoding goes on
    with the byte that did not fit. *)
Fixpoint utf8_decode (l : list Byte.byte) : list Byte.byte :=
  match l with
  | [] => []
  | b :: l1 =>
      if in_range 0 127 b then b :: utf8_decode l1
      else if in_range 194 244 b then
        match l1 with
        | [] => U_FFFD
        | b2 :: l2 =>
            if negb (in_range (second_lo b) (second_hi b) b2)
            then U_FFFD ++ utf8_decode l1
            else if in_range 194 223 b then b :: b2 :: utf8_decode l2
            else
              match l2 with
              | [] => U_FFFD
              | b3 :: l3 =>
                  if negb (in_range 128 191 b3)
                  then U_FFFD ++ utf8_decode l2
                  else if in_range 224 239 b
                  then b :: b2 :: b3 :: utf8_decode l3
                  else
                    match l3 with
                    | [] => U_FFFD
                    | b4 :: l4 =>
                        if negb (in_range 128 191 b4)
                        then U_FFFD ++ utf8_decode l3
                        else b :: b2 :: b3 :: b4 :: utf8_decode l4
                    end
              end
        end
      else U_FFFD ++ utf8_decode l1
  end.

(** The check [ws] makes on the payload of a text frame: a sequence of
    well-formed UTF-8 sequences of one to four bytes. *)
Fixpoint isValidUTF8 (l : list Byte.byte) : bool :=
  match l with
  | [] => true
  | b :: l1 =>
      if in_range 0 127 b then isValidUTF8 l1
      else if in_range 194 223 b then
        match l1 with
        | b2 :: l2 => in_range 128 191 b2 && isValidUTF8 l2
        | _ => false
        end
      else if in_range 224 239 b then
        match l1 with
        | b2 :: b3 :: l3 =>
            in_range (second_lo b) (second_hi b) b2 && in_range 128 191 b3
            && isValidUTF8 l3
        | _ => false
        end
      else if in_range 240 244 b then
        match l1 with
        | b2 :: b3 :: b4 :: l4 =>
            in_range (second_lo b) (second_hi b) b2 && in_range 128 191 b3
            && in_range 128 191 b4 && isValidUTF8 l4
        | _ => false
        end
      else false
  end.

(** [message.toString()] on the payload of a frame. *)
Definition toString (p : list Byte.byte) : string :=
  String.string_of_list_byte (utf8_decode p).

(** What [ws] makes of a data frame it receives: the ['message'] event,
    whose handler reads the text [message.toString()].  A text frame
    whose payload is not well-formed UTF-8 gets no event: [ws] fails the
    connection, with status 1007. *)
Definition receive (f : frame) : option string :=
  if negb (isBinary f) && negb (isValidUTF8 (payload f)) then None
  else Some (toString (payload f)).

(** The event a frame received on socket [c] comes to: its message, or
    the beginning of the closing handshake. *)
Definition deliver (c : nat) (f : frame) : event :=
  match receive f with
  | Some message => Message c message
  | None => Closing c
  end.

(** The frame [ws.send(text)] writes: a text frame. *)
Definition sent (text : string) : frame :=
  {| isBinary := false; payload := String.list_byte_of_string text |}.

Definition num_is_finite (bits : N) : bool :=
  negb (N.land (N.shiftr bits 52) 2047 =? 2047)%N.

(** The value the text [JSON.stringify(j)] stands for, which is what a
    peer reads from it: [j], but that a number that is not finite is
    written [null] and the negative zero [0]. *)
Fixpoint written (j : json) : json :=
  match j with
  | JNum n =>
      if num_is_finite n then (if (n =? 2 ^ 63)%N then JNum 0 else JNum n)
      else JNull
  | JArr items => JArr (written <$> items)
  | JObj fields =>
      JObj ((λ kv, match kv with (k, v) => (k, written v) end) <$> fields)
  | _ => j
  end.

(** What a call puts on the wire. *)
Inductive wire : Type :=
  | Data (f : frame)      (* this data frame *)
  | JSONText (v : json)   (* a text frame, its payload the JSON text
                             that stands for [v] *)
  | PingFrame             (* a ping *)
  | Destroyed.            (* nothing: the connection is destroyed *)

Definition on_wire (k : call) : wire :=
  match k with
  | Send text => Data (sent text)
  | SendJSON obj => JSONText (written obj)
  | Ping => PingFrame
  | Terminate => Destroyed
  end.

Definition transmitted (effs : list effect) : list (nat * wire) :=
  (λ e, (e.1, on_wire e.2)) <$> effs.

(** ** The vocabulary of the specification *)

(** A field of a parsed envelope, [None] when absent. *)
Definition field (data : json) (name : string) : option json :=
  match get_prop data name with
  | Normal o => o
  | Throw _ => None
  end.

(** The field is present and non-empty (truthy); whether a value is
    truthy does not depend on where it is allocated. *)
Definition nonempty (data : json) (name : string) : bool :=
  truthy (to_value 0 (field data name)).

(** The envelope goes to the register branch. *)
Definition is_register (data : json) : bool :=
  strict_eq_str (to_value 0 (field data "type")) "register"
  && nonempty data "userId".

(** The envelope has non-empty [type], [from] and [to]. *)
Definition is_signal (data : json) : bool :=
  nonempty data "type" && nonempty data "from" && nonempty data "to".

(** The socket the [to] field of [data] is registered to, when [data]
    arrives in state [st]. *)
Definition recipient (st : relay) (data : json) : option nat :=
  clients_get (to_value (heap_next st) (field data "to")) st.

(** The recipient exists and its channel is open. *)
Definition available (st : relay) (data : json) : bool :=
  match recipient st data with
  | Some r => is_open st r
  | None => false
  end.

(** Whether the calls [effs] include a probe, a termination or a message
    of any kind to socket [c]. *)
Definition pinged (c : nat) (effs : list effect) : bool :=
  existsb (λ e, match e with (c', Ping) => bool_decide (c' = c) | _ => false end) effs.
Definition terminated (c : nat) (effs : list effect) : bool :=
  existsb (λ e, match e with (c', Terminate) => bool_decide (c' = c) | _ => false end) effs.
Definition sent_to (c : nat) (effs : list effect) : bool :=
  existsb (λ e, match e with
                | (c', Send _) | (c', SendJSON _) => bool_decide (c' = c)
                | _ => false
                end) effs.

(** The value holds no number that [JSON.stringify] writes as another
    value: none that is not finite and no negative zero. *)
Fixpoint plain (j : json) : bool :=
  match j with
  | JNum n => num_is_finite n && negb (n =? 2 ^ 63)%N
  | JArr items => forallb plain items
  | JObj fields => forallb (λ kv, match kv with (_, v) => plain v end) fields
  | _ => true
  end.

(** The socket is attached and its identity is filed under [k]. *)
Definition holds (k : value) (ws : WebSocketClient) : bool :=
  bool_decide (readyState ws ≠ CLOSED) && truthy (userId ws)
  && bool_decide (map_key (userId ws) = k).

(** The registration [p], of socket [p.1] under the key [p.2], is in
    order in [st]: no other attached socket holds the key, and the
    socket has no identity or this one. *)
Definition may_register (st : relay) (p : nat * value) : bool :=
  forallb
    (λ c', match sockets st !! c' with
           | Some ws =>
               if decide (c' = p.1)
               then negb (truthy (userId ws))
                    || bool_decide (map_key (userId ws) = p.2)
               else negb (holds p.2 ws)
           | None => true
           end)
    (seq 0 (length (sockets st))).

(** No two attached sockets have one identity. *)
Definition distinct (ss : list WebSocketClient) : Prop :=
  ∀ c1 c2 ws1 ws2, ss !! c1 = Some ws1 → ss !! c2 = Some ws2 →
    c1 ≠ c2 → truthy (userId ws1) = true → readyState ws1 ≠ CLOSED →
    holds (map_key (userId ws1)) ws2 = false.

(** Socket [c] answers the probe it was sent: a [Pong c] comes before the
    next [Tick] of [evs], if there is one. *)
Fixpoint acked (c : nat) (evs : list event) : bool :=
  match evs with
  | [] => true
  | Tick :: _ => false
  | Pong c' :: evs' => bool_decide (c' = c) || acked c evs'
  | _ :: evs' => acked c evs'
  end.

Section executions.
Variable JSON_parse : string → option json.

(** A frame that is not JSON, or is neither a register message nor a
    signal. *)
Definition malformed (message : string) : bool :=
  match JSON_parse message with
  | None => true
  | Some data => negb (is_register data) && negb (is_signal data)
  end.

(** In the execution [evs] from [st], socket [c] acknowledges every
    probe sent to it before the next tick. *)
Fixpoint responsive (c : nat) (evs : list event) (st : relay) : bool :=
  match evs with
  | [] => true
  | ev :: evs' =>
      let r := step JSON_parse st ev in
      (match ev with
       | Tick => implb (pinged c r.2) (acked c evs')
       | _ => true
       end) && responsive c evs' r.1
  end.

(** The registration the event [ev] makes in state [st], if any: which
    socket registers under which key. *)
Definition registration (st : relay) (ev : event) : list (nat * value) :=
  match ev with
  | Message c message =>
      match JSON_parse message with
      | Some data =>
          if attached st c && is_register data
          then [(c, map_key (to_value (heap_next st) (field data "userId")))]
          else []
      | None => []
      end
  | _ => []
  end.

(** The registrations of the execution [evs] from [st], oldest
    first. *)
Fixpoint registrations (evs : list event) (st : relay) : list (nat * value) :=
  match evs with
  | [] => []
  | ev :: evs' =>
      registration st ev ++ registrations evs' (step JSON_parse st ev).1
  end.

(** Every registration of the execution [evs] from [st] is in order
    when it is made. *)
Fixpoint orderly (evs : list event) (st : relay) : bool :=
  match evs with
  | [] => true
  | ev :: evs' =>
      forallb (may_register st) (registration st ev)
      && orderly evs' (step JSON_parse st ev).1
  end.
End executions.

(** What one firing of [pingInterval] does to a socket it visits. *)
Definition sweep_socket (ws : WebSocketClient) : WebSocketClient :=
  if decide (isAlive ws = Some false)
  then if decide (readyState ws = CLOSED) then ws else set_readyState CLOSING ws
  else set_isAlive (Some false) ws.

(** Every Registry entry and every identity held by a socket comes from
    a registration of the log [L]. *)
Definition logged (L : list (nat * value)) (ss : list WebSocketClient)
    (m : gmap value nat) : Prop :=
  (∀ k c, m !! k = Some c → (c, k) ∈ L ∧ is_Some (ss !! c))
  ∧ (∀ c ws, ss !! c = Some ws → truthy (userId ws) = true →
       (c, map_key (userId ws)) ∈ L).

(** The Registry holds a socket only under its identity and only until
    its ['close'] event, and holds every registered socket whose channel
    is open. *)
Definition exact (ss : list WebSocketClient) (m : gmap value nat) : Prop :=
  (∀ k c, m !! k = Some c →
     ∃ ws, ss !! c = Some ws ∧ map_key (userId ws) = k
           ∧ truthy (userId ws) = true ∧ readyState ws ≠ CLOSED)
  ∧ (∀ c ws, ss !! c = Some ws → truthy (userId ws) = true →
       readyState ws = OPEN → m !! map_key (userId ws) = Some c).

(** ** More vocabulary for the relay *)

(** The call one firing of [pingInterval] makes on the socket [c] of
    [st]. *)
Definition tick_call (st : relay) (c : nat) : call :=
  match sockets st !! c with
  | Some ws => if decide (isAlive ws = Some false) then Terminate else Ping
  | None => Ping
  end.

(** Socket [c] of [st] is attached, its flag is false and it is
    registered under the key [k]: the next tick deletes the entry under
    [k]. *)
Definition reaped_key (st : relay) (c : nat) (k : value) : Prop :=
  ∃ ws, sockets st !! c = Some ws ∧ readyState ws ≠ CLOSED
        ∧ isAlive ws = Some false ∧ truthy (userId ws) = true
        ∧ map_key (userId ws) = k.

(** The event is neither a tick, nor a pong of socket [c], nor its
    ['close'] event. *)
Definition quiet (c : nat) (ev : event) : bool :=
  match ev with
  | Tick => false
  | Pong c' | Close c' => negb (bool_decide (c' = c))
  | _ => true
  end.

(** An object or array allocated before address [n], or a primitive. *)
Definition allocated (n : nat) (v : value) : Prop :=
  match v with
  | VRef a => a < n
  | _ => True
  end.

(** What every state the relay can reach satisfies: the liveness flag of
    a socket is set, its [userId] is unset or truthy, the keys of the
    Registry are truthy, each is filed under itself and each entry names
    a socket the server has accepted; and no object is used before it is
    allocated. *)
Definition well_formed (st : relay) : Prop :=
  (∀ c ws, sockets st !! c = Some ws →
     is_Some (isAlive ws)
     ∧ (userId ws = VUndefined ∨ truthy (userId ws) = true)
     ∧ allocated (heap_next st) (userId ws))
  ∧ (∀ k c, connectedClients st !! k = Some c →
       truthy k = true ∧ map_key k = k ∧ allocated (heap_next st) k
       ∧ c < length (sockets st)).

(** The value read is an object or an array. *)
Definition is_ref (j : option json) : bool :=
  match j with
  | Some (JArr _) | Some (JObj _) => true
  | _ => false
  end.

(** * The in-memory storage [MemStorage]

    The class [MemStorage]: seven [Map]s from a numeric id to a record
    and, for each, the counter the next id comes from.  The keys of a
    [Map] are values of its counter, so an id is a natural number here,
    as are the ids one record refers to another by. *)

(** ** A [Map] with numeric keys

    The entries in order of insertion, each key once. *)
Fixpoint js_get {V} (k : N) (m : list (N * V)) : option V :=
  match m with
  | [] => None
  | (k', v) :: m' => if (k' =? k)%N then Some v else js_get k m'
  end.

(** [m.set(k, v)]: the value of an existing key is replaced where it
    stands, a new key goes last. *)
Fixpoint js_set {V} (k : N) (v : V) (m : list (N * V)) : list (N * V) :=
  match m with
  | [] => [(k, v)]
  | (k', v') :: m' =>
      if (k' =? k)%N then (k, v) :: m' else (k', v') :: js_set k v m'
  end.

(** [Array.from(m.values())]. *)
Definition js_values {V} (m : list (N * V)) : list V := m.*2.

(** [n++] on a counter that is a JavaScript number: exact below 2^53.
    From there on the sum is rounded to the nearest number there is, to
    the even one of two: up to 2^54 every second number moves on by
    two, and no other number moves. *)
Definition max_safe : N := 2 ^ 53.
Definition next_id (n : N) : N :=
  if (n <? max_safe)%N then (n + 1)%N
  else if (n <? 2 * max_safe)%N && N.odd (n / 2) then (n + 2)%N
  else n.

(** [[...new Set(l)]]: the first occurrence of each element, in
    order. *)
Fixpoint uniq (seen : list N) (l : list N) : list N :=
  match l with
  | [] => []
  | x :: l' =>
      if decide (x ∈ seen) then uniq seen l' else x :: uniq (x :: seen) l'
  end.

(** ** The records

    Each record has the fields the class reads and, in [rest], its other
    properties.  An [Insert] record is the record without its [id]. *)
Definition properties : Type := list (string * json).

Module InsertUser.
Record t : Type := mk { username : string; rest : properties }.
End InsertUser.

Module User.
Record t : Type := mk { id : N; username : string; rest : properties }.
End User.

Module InsertExpert.
Record t : Type :=
  mk { userId : N; availability : option bool; rest : properties }.
End InsertExpert.

Module Expert.
Record t : Type :=
  mk { id : N; userId : N; availability : option bool; rest : properties }.
End Expert.

Module InsertCategory.
Record t : Type := mk { rest : properties }.
End InsertCategory.

Module Category.
Record t : Type := mk { id : N; rest : properties }.
End Category.

Module InsertAdvice.
Record t : Type := mk { expertId : N; categoryId : N; rest : properties }.
End InsertAdvice.

Module Advice.
Record t : Type :=
  mk { id : N; expertId : N; categoryId : N; rest : properties }.
End Advice.

Module InsertChat.
Record t : Type :=
  mk { userId : N; expertId : N; lastMessage : option string;
       lastMessageTime : option Z; rest : properties }.
End InsertChat.

Module Chat.
Record t : Type :=
  mk { id : N; userId : N; expertId : N; lastMessage : option string;
       lastMessageTime : option Z; rest : properties }.
End Chat.

(** A [timestamp] is a valid [Date], kept as its [getTime()]. *)
Module InsertMessage.
Record t : Type :=
  mk { chatId : N; senderId : N; content : string; timestamp : Z;
       isRead : option bool; rest : properties }.
End InsertMessage.

Module Message.
Record t : Type :=
  mk { id : N; chatId : N; senderId : N; content : string; timestamp : Z;
       isRead : option bool; rest : properties }.
End Message.

Module InsertPayment.
Record t : Type := mk { userId : N; expertId : N; rest : properties }.
End InsertPayment.

Module Payment.
Record t : Type := mk { id : N; userId : N; expertId : N; rest : properties }.
End Payment.

(** ** The state of a [MemStorage] *)
Record MemStorage : Type := {
  users : list (N * User.t);
  experts : list (N * Expert.t);
  categories : list (N * Category.t);
  advices : list (N * Advice.t);
  chats : list (N * Chat.t);
  messages : list (N * Message.t);
  payments : list (N * Payment.t);
  currentUserId : N;
  currentExpertId : N;
  currentCategoryId : N;
  currentAdviceId : N;
  currentChatId : N;
  currentMessageId : N;
  currentPaymentId : N
}.

Definition with_users (m : list (N * User.t)) (n : N) (st : MemStorage) :=
  {| users := m; experts := experts st; categories := categories st;
     advices := advices st; chats := chats st; messages := messages st;
     payments := payments st; currentUserId := n;
     currentExpertId := currentExpertId st;
     currentCategoryId := currentCategoryId st;
     currentAdviceId := currentAdviceId st; currentChatId := currentChatId st;
     currentMessageId := currentMessageId st;
     currentPaymentId := currentPaymentId st |}.
Definition with_experts (m : list (N * Expert.t)) (n : N) (st : MemStorage) :=
  {| users := users st; experts := m; categories := categories st;
     advices := advices st; chats := chats st; messages := messages st;
     payments := payments st; currentUserId := currentUserId st;
     currentExpertId := n;
     currentCategoryId := currentCategoryId st;
     currentAdviceId := currentAdviceId st; currentChatId := currentChatId st;
     currentMessageId := currentMessageId st;
     currentPaymentId := currentPaymentId st |}.
Definition with_categories (m : list (N * Category.t)) (n : N) (st : MemStorage) :=
  {| users := users st; experts := experts st; categories := m;
     advices := advices st; chats := chats st; messages := messages st;
     payments := payments st; currentUserId := currentUserId st;
     currentExpertId := currentExpertId st;
     currentCategoryId := n;
     currentAdviceId := currentAdviceId st; currentChatId := currentChatId st;
     currentMessageId := currentMessageId st;
     currentPaymentId := currentPaymentId st |}.
Definition with_advices (m : list (N * Advice.t)) (n : N) (st : MemStorage) :=
  {| users := users st; experts := experts st; categories := categories st;
     advices := m; chats := chats st; messages := messages st;
     payments := payments st; currentUserId := currentUserId st;
     currentExpertId := currentExpertId st;
     currentCategoryId := currentCategoryId st;
     currentAdviceId := n; currentChatId := currentChatId st;
     currentMessageId := currentMessageId st;
     currentPaymentId := currentPaymentId st |}.
Definition with_chats (m : list (N * Chat.t)) (n : N) (st : MemStorage) :=
  {| users := users st; experts := experts st; categories := categories st;
     advices := advices st; chats := m; messages := messages st;
     payments := payments st; currentUserId := currentUserId st;
     currentExpertId := currentExpertId st;
     currentCategoryId := currentCategoryId st;
     currentAdviceId := currentAdviceId st; currentChatId := n;
     currentMessageId := currentMessageId st;
     currentPaymentId := currentPaymentId st |}.
Definition with_messages (m : list (N * Message.t)) (n : N) (st : MemStorage) :=
  {| users := users st; experts := experts st; categories := categories st;
     advices := advices st; chats := chats st; messages := m;
     payments := payments st; currentUserId := currentUserId st;
     currentExpertId := currentExpertId st;
     currentCategoryId := currentCategoryId st;
     currentAdviceId := currentAdviceId st; currentChatId := currentChatId st;
     currentMessageId := n;
     currentPaymentId := currentPaymentId st |}.
Definition with_payments (m : list (N * Payment.t)) (n : N) (st : MemStorage) :=
  {| users := users st; experts := experts st; categories := categories st;
     advices := advices st; chats := chats st; messages := messages st;
     payments := m; currentUserId := currentUserId st;
     currentExpertId := currentExpertId st;
     currentCategoryId := currentCategoryId st;
     currentAdviceId := currentAdviceId st; currentChatId := currentChatId st;
     currentMessageId := currentMessageId st;
     currentPaymentId := n |}.

(** ** The operations

    A reading operation is a function of the state; a writing one
    returns what the method resolves to and the next state. *)

(** *** Users *)
Definition getUser (id : N) (st : MemStorage) : option User.t :=
  js_get id (users st).

Definition getUserByUsername (username : string) (st : MemStorage)
    : option User.t :=
  find (λ user, String.eqb (User.username user) username)
       (js_values (users st)).

Definition createUser (insertUser : InsertUser.t) (st : MemStorage)
    : User.t * MemStorage :=
  let id := currentUserId st in
  let user := User.mk id (InsertUser.username insertUser)
                      (InsertUser.rest insertUser) in
  (user, with_users (js_set id user (users st)) (next_id id) st).

(** *** Experts *)
Definition getExpert (id : N) (st : MemStorage) : option Expert.t :=
  js_get id (experts st).

Definition getExpertByUserId (userId : N) (st : MemStorage) : option Expert.t :=
  find (λ expert, (Expert.userId expert =? userId)%N) (js_values (experts st)).

Definition createExpert (insertExpert : InsertExpert.t) (st : MemStorage)
    : Expert.t * MemStorage :=
  let id := currentExpertId st in
  let expert := Expert.mk id (InsertExpert.userId insertExpert)
                          (InsertExpert.availability insertExpert)
                          (InsertExpert.rest insertExpert) in
  (expert, with_experts (js_set id expert (experts st)) (next_id id) st).

Definition updateExpertAvailability (id : N) (availability : bool)
    (st : MemStorage) : option Expert.t * MemStorage :=
  match js_get id (experts st) with
  | None => (None, st)
  | Some expert =>
      let updatedExpert :=
        Expert.mk (Expert.id expert) (Expert.userId expert)
                  (Some availability) (Expert.rest expert) in
      (Some updatedExpert,
       with_experts (js_set id updatedExpert (experts st))
                    (currentExpertId st) st)
  end.

Definition getAllExperts (st : MemStorage) : list Expert.t :=
  js_values (experts st).

(** *** Categories *)
Definition getCategory (id : N) (st : MemStorage) : option Category.t :=
  js_get id (categories st).

Definition getAllCategories (st : MemStorage) : list Category.t :=
  js_values (categories st).

Definition createCategory (insertCategory : InsertCategory.t)
    (st : MemStorage) : Category.t * MemStorage :=
  let id := currentCategoryId st in
  let category := Category.mk id (InsertCategory.rest insertCategory) in
  (category,
   with_categories (js_set id category (categories st)) (next_id id) st).

(** *** Advice *)
Definition getAdvice (id : N) (st : MemStorage) : option Advice.t :=
  js_get id (advices st).

Definition getAllAdvices (st : MemStorage) : list Advice.t :=
  js_values (advices st).

Definition getAdvicesByExpert (expertId : N) (st : MemStorage)
    : list Advice.t :=
  filter (λ advice, Advice.expertId advice = expertId) (js_values (advices st)).

Definition getAdvicesByCategory (categoryId : N) (st : MemStorage)
    : list Advice.t :=
  filter (λ advice, Advice.categoryId advice = categoryId)
         (js_values (advices st)).

Definition createAdvice (insertAdvice : InsertAdvice.t) (st : MemStorage)
    : Advice.t * MemStorage :=
  let id := currentAdviceId st in
  let advice := Advice.mk id (InsertAdvice.expertId insertAdvice)
                          (InsertAdvice.categoryId insertAdvice)
                          (InsertAdvice.rest insertAdvice) in
  (advice, with_advices (js_set id advice (advices st)) (next_id id) st).

(** [getExpertsByCategory] after its [await]: [advicesInCategory] was
    read before, the experts are looked up in [st]. *)
Definition expertsOfAdvices (advicesInCategory : list Advice.t)
    (st : MemStorage) : list Expert.t :=
  let expertIds := uniq [] (Advice.expertId <$> advicesInCategory) in
  omap (λ expertId, js_get expertId (experts st)) expertIds.

(** [getExpertsByCategory] when nothing runs during its [await]. *)
Definition getExpertsByCategory (categoryId : N) (st : MemStorage)
    : list Expert.t :=
  expertsOfAdvices (getAdvicesByCategory categoryId st) st.

(** *** Chats *)
Definition getChat (id : N) (st : MemStorage) : option Chat.t :=
  js_get id (chats st).

Definition getChatByUserAndExpert (userId expertId : N) (st : MemStorage)
    : option Chat.t :=
  find (λ chat, (Chat.userId chat =? userId)%N
                && (Chat.expertId chat =? expertId)%N)
       (js_values (chats st)).

Definition getChatsByUser (userId : N) (st : MemStorage) : list Chat.t :=
  filter (λ chat, Chat.userId chat = userId) (js_values (chats st)).

Definition getChatsByExpert (expertId : N) (st : MemStorage) : list Chat.t :=
  filter (λ chat, Chat.expertId chat = expertId) (js_values (chats st)).

Definition createChat (insertChat : InsertChat.t) (st : MemStorage)
    : Chat.t * MemStorage :=
  let id := currentChatId st in
  let chat := Chat.mk id (InsertChat.userId insertChat)
                      (InsertChat.expertId insertChat)
                      (InsertChat.lastMessage insertChat)
                      (InsertChat.lastMessageTime insertChat)
                      (InsertChat.rest insertChat) in
  (chat, with_chats (js_set id chat (chats st)) (next_id id) st).

(** *** Messages *)
Definition getMessage (id : N) (st : MemStorage) : option Message.t :=
  js_get id (messages st).

(** [Array.prototype.sort] with the comparator
    [a.timestamp.getTime() - b.timestamp.getTime()]: the sort is stable,
    so it is the insertion of each element before the first later
    one. *)
Fixpoint insert_by_time (m : Message.t) (l : list Message.t)
    : list Message.t :=
  match l with
  | [] => [m]
  | m' :: l' =>
      if (Message.timestamp m <=? Message.timestamp m')%Z
      then m :: m' :: l'
      else m' :: insert_by_time m l'
  end.

Definition sort_by_time (l : list Message.t) : list Message.t :=
  foldr insert_by_time [] l.

Definition getMessagesByChat (chatId : N) (st : MemStorage)
    : list Message.t :=
  sort_by_time
    (filter (λ message, Message.chatId message = chatId)
            (js_values (messages st))).

Definition createMessage (insertMessage : InsertMessage.t) (st : MemStorage)
    : Message.t * MemStorage :=
  let id := currentMessageId st in
  let message := Message.mk id (InsertMessage.chatId insertMessage)
                            (InsertMessage.senderId insertMessage)
                            (InsertMessage.content insertMessage)
                            (InsertMessage.timestamp insertMessage)
                            (InsertMessage.isRead insertMessage)
                            (InsertMessage.rest insertMessage) in
  let st1 := with_messages (js_set id message (messages st)) (next_id id) st in
  match js_get (Message.chatId message) (chats st1) with
  | Some chat =>
      let updatedChat :=
        Chat.mk (Chat.id chat) (Chat.userId chat) (Chat.expertId chat)
                (Some (Message.content message))
                (Some (Message.timestamp message)) (Chat.rest chat) in
      (message,
       with_chats (js_set (Chat.id chat) updatedChat (chats st1))
                  (currentChatId st1) st1)
  | None => (message, st1)
  end.

(** The message as [markMessagesAsRead] rewrites it. *)
Definition read (message : Message.t) : Message.t :=
  Message.mk (Message.id message) (Message.chatId message)
             (Message.senderId message) (Message.content message)
             (Message.timestamp message) (Some true) (Message.rest message).

(** [!message.isRead] *)
Definition unread (message : Message.t) : bool :=
  match Message.isRead message with
  | Some true => false
  | _ => true
  end.

(** The callback of [chatMessages.forEach] in [markMessagesAsRead]. *)
Definition markOne (userId : N) (st : MemStorage) (message : Message.t)
    : MemStorage :=
  if negb (Message.senderId message =? userId)%N && unread message
  then with_messages (js_set (Message.id message) (read message) (messages st))
                     (currentMessageId st) st
  else st.

(** [markMessagesAsRead] after its [await]: [chatMessages] was read
    before, the messages are written in [st]. *)
Definition markAllRead (chatMessages : list Message.t) (userId : N)
    (st : MemStorage) : MemStorage :=
  foldl (markOne userId) st chatMessages.

(** [markMessagesAsRead] when nothing runs during its [await]. *)
Definition markMessagesAsRead (chatId userId : N) (st : MemStorage)
    : MemStorage :=
  markAllRead (getMessagesByChat chatId st) userId st.

(** *** Payments *)
Definition getPayment (id : N) (st : MemStorage) : option Payment.t :=
  js_get id (payments st).

Definition getPaymentsByUser (userId : N) (st : MemStorage) : list Payment.t :=
  filter (λ payment, Payment.userId payment = userId) (js_values (payments st)).

Definition getPaymentsByExpert (expertId : N) (st : MemStorage)
    : list Payment.t :=
  filter (λ payment, Payment.expertId payment = expertId)
         (js_values (payments st)).

Definition createPayment (insertPayment : InsertPayment.t) (st : MemStorage)
    : Payment.t * MemStorage :=
  let id := currentPaymentId st in
  let payment := Payment.mk id (InsertPayment.userId insertPayment)
                            (InsertPayment.expertId insertPayment)
                            (InsertPayment.rest insertPayment) in
  (payment, with_payments (js_set id payment (payments st)) (next_id id) st).

(** ** The writing operations, as data *)
Inductive mutation : Type :=
  | CreateUser (insertUser : InsertUser.t)
  | CreateExpert (insertExpert : InsertExpert.t)
  | UpdateExpertAvailability (id : N) (availability : bool)
  | CreateCategory (insertCategory : InsertCategory.t)
  | CreateAdvice (insertAdvice : InsertAdvice.t)
  | CreateChat (insertChat : InsertChat.t)
  | CreateMessage (insertMessage : InsertMessage.t)
  | MarkMessagesAsRead (chatId userId : N)
  | CreatePayment (insertPayment : InsertPayment.t).

Definition perform (op : mutation) (st : MemStorage) : MemStorage :=
  match op with
  | CreateUser i => (createUser i st).2
  | CreateExpert i => (createExpert i st).2
  | UpdateExpertAvailability id a => (updateExpertAvailability id a st).2
  | CreateCategory i => (createCategory i st).2
  | CreateAdvice i => (createAdvice i st).2
  | CreateChat i => (createChat i st).2
  | CreateMessage i => (createMessage i st).2
  | MarkMessagesAsRead chatId userId => markMessagesAsRead chatId userId st
  | CreatePayment i => (createPayment i st).2
  end.

(** A table in good order: each key once, each record under its own
    id, every id below the counter, the counter at most 2^53. *)
Definition table_ok {V} (id : V → N) (m : list (N * V)) (current : N) : Prop :=
  NoDup m.*1
  ∧ (∀ k v, (k, v) ∈ m → id v = k ∧ (k < current)%N)
  ∧ (current ≤ max_safe)%N.

(** The counter the operation takes an id from, if it takes one, has
    not reached 2^53. *)
Definition has_room (op : mutation) (st : MemStorage) : Prop :=
  match op with
  | CreateUser _ => (currentUserId st < max_safe)%N
  | CreateExpert _ => (currentExpertId st < max_safe)%N
  | CreateCategory _ => (currentCategoryId st < max_safe)%N
  | CreateAdvice _ => (currentAdviceId st < max_safe)%N
  | CreateChat _ => (currentChatId st < max_safe)%N
  | CreateMessage _ => (currentMessageId st < max_safe)%N
  | CreatePayment _ => (currentPaymentId st < max_safe)%N
  | UpdateExpertAvailability _ _ | MarkMessagesAsRead _ _ => True
  end.

Definition store_ok (st : MemStorage) : Prop :=
  table_ok User.id (users st) (currentUserId st)
  ∧ table_ok Expert.id (experts st) (currentExpertId st)
  ∧ table_ok Category.id (categories st) (currentCategoryId st)
  ∧ table_ok Advice.id (advices st) (currentAdviceId st)
  ∧ table_ok Chat.id (chats st) (currentChatId st)
  ∧ table_ok Message.id (messages st) (currentMessageId st)
  ∧ table_ok Payment.id (payments st) (currentPaymentId st).

(** The storage before the sample data: empty maps, counters at 1. *)
Definition empty_store : MemStorage :=
  {| users := []; experts := []; categories := []; advices := [];
     chats := []; messages := []; payments := [];
     currentUserId := 1; currentExpertId := 1; currentCategoryId := 1;
     currentAdviceId := 1; currentChatId := 1; currentMessageId := 1;
     currentPaymentId := 1 |}.

(** What [markMessagesAsRead] makes of a message of the chat, for the
    reader [userId]. *)
Definition marked (userId : N) (message : Message.t) : Message.t :=
  if negb (Message.senderId message =? userId)%N && unread message
  then read message else message.

(** The chat after a message of it was created. *)
Definition touched (message : Message.t) (chat : Chat.t) : Chat.t :=
  Chat.mk (Chat.id chat) (Chat.userId chat) (Chat.expertId chat)
          (Some (Message.content message))
          (Some (Message.timestamp message)) (Chat.rest chat).

(** [a] is not later than [b]. *)
Definition time_le (a b : Message.t) : Prop :=
  (Message.timestamp a ≤ Message.timestamp b)%Z.

(** [table_ok] and [store_ok], computed. *)
Definition table_okb {V} (id : V → N) (m : list (N * V)) (current : N) : bool :=
  bool_decide (NoDup m.*1)
  && forallb (λ p, (id p.2 =? p.1)%N && (p.1 <? current)%N) m
  && (current <=? max_safe)%N.

Definition store_okb (st : MemStorage) : bool :=
  table_okb User.id (users st) (currentUserId st)
  && table_okb Expert.id (experts st) (currentExpertId st)
  && table_okb Category.id (categories st) (currentCategoryId st)
  && table_okb Advice.id (advices st) (currentAdviceId st)
  && table_okb Chat.id (chats st) (currentChatId st)
  && table_okb Message.id (messages st) (currentMessageId st)
  && table_okb Payment.id (payments st) (currentPaymentId st).

(** ** Concrete frames

    The text of a few frames and what [JSON.parse] returns for each, for
    the examples below. *)
Module Frames.
Definition dq : string := String (Ascii.ascii_of_nat 34) EmptyString.

(** ["k":"v"] *)
Definition member (k v : string) : string :=
  dq +:+ k +:+ dq +:+ ":" +:+ dq +:+ v +:+ dq.

(** [{"type":"register","userId":"<id>"}] *)
Definition register_text (id : string) : string :=
  "{" +:+ member "type" "register" +:+ "," +:+ member "userId" id +:+ "}".
Definition register_data (id : string) : json :=
  JObj [("type", JStr "register"); ("userId", JStr id)].

(** [{"type":"offer","from":"<from>","to":"<to>","sdp":"abc"}] *)
Definition offer_text (from to : string) : string :=
  "{" +:+ member "type" "offer" +:+ "," +:+ member "from" from +:+ ","
      +:+ member "to" to +:+ "," +:+ member "sdp" "abc" +:+ "}".
Definition offer_data (from to : string) : json :=
  JObj [("type", JStr "offer"); ("from", JStr from); ("to", JStr to);
        ("sdp", JStr "abc")].

(** [{"type":"register","userId":"u3","from":"u2","to":"u1"}] *)
Definition register_routed_text : string :=
  "{" +:+ member "type" "register" +:+ "," +:+ member "userId" "u3" +:+ ","
      +:+ member "from" "u2" +:+ "," +:+ member "to" "u1" +:+ "}".
Definition register_routed_data : json :=
  JObj [("type", JStr "register"); ("userId", JStr "u3");
        ("from", JStr "u2"); ("to", JStr "u1")].

(** [{"type":"offer","to":"u1"}], which lacks [from]. *)
Definition partial_text : string :=
  "{" +:+ member "type" "offer" +:+ "," +:+ member "to" "u1" +:+ "}".
Definition partial_data : json :=
  JObj [("type", JStr "offer"); ("to", JStr "u1")].

Definition table : list (string * json) :=
  [ (register_text "u1", register_data "u1");
    (register_text "u2", register_data "u2");
    (register_text "bob", register_data "bob");
    (offer_text "u2" "u1", offer_data "u2" "u1");
    (offer_text "u1" "u1", offer_data "u1" "u1");
    (offer_text "u2" "ghost", offer_data "u2" "ghost");
    (offer_text "carol" "bob", offer_data "carol" "bob");
    (register_routed_text, register_routed_data);
    (partial_text, partial_data);
    ("null", JNull) ].

(** [JSON.parse] on the frames of [table]; any other text used below
    ([not json]) is not JSON. *)
Fixpoint lookup_text (t : list (string * json)) (message : string) : option json :=
  match t with
  | [] => None
  | (text, data) :: t' =>
      if String.eqb text message then Some data else lookup_text t' message
  end.

Definition JSON_parse : string → option json := lookup_text table.

(** Sample states.  One socket, not registered; the same after two ticks
    without a pong, terminated by the second and awaiting its ['close']
    event. *)
Definition st_one : relay := (run JSON_parse [Connection] initial).1.
Definition st_one_reaped : relay :=
  (run JSON_parse [Connection; Tick; Tick] initial).1.

(** Two sockets, the first registered as [u1]; then the second
    registered as [u2] as well. *)
Definition st_u1 : relay :=
  (run JSON_parse
     [Connection; Connection; Message 0 (register_text "u1")] initial).1.
Definition st_u1_u2 : relay :=
  (run JSON_parse [Message 1 (register_text "u2")] st_u1).1.

(** One socket, registered as [u1], probed once and silent since. *)
Definition st_u1_probed : relay :=
  (run JSON_parse
     [Connection; Message 0 (register_text "u1"); Tick] initial).1.
Definition ws_u1_probed : WebSocketClient :=
  {| readyState := OPEN; userId := VStr "u1"; isAlive := Some false |}.

(** Three sockets, none registered; the first two then register as
    [bob], one after the other, and the third sends [bob] an offer. *)
Definition st_three : relay :=
  (run JSON_parse [Connection; Connection; Connection] initial).1.
Definition bob_first : relay * list effect :=
  on_message JSON_parse 0 (register_text "bob") st_three.
Definition bob_second : relay * list effect :=
  on_message JSON_parse 1 (register_text "bob") bob_first.1.
Definition bob_offered : relay * list effect :=
  on_message JSON_parse 2 (offer_text "carol" "bob") bob_second.1.

(** Sample executions.  Two sockets register as [bob], the second
    after the first; then the first one disconnects. *)
Definition two_bobs : list event :=
  [Connection; Connection;
   Message 0 (register_text "bob"); Message 1 (register_text "bob")].
Definition two_bobs_first_leaves : list event := two_bobs ++ [Close 0].

(** Two sockets register as [u1] and [u2]; the first one leaves. *)
Definition two_users : list event :=
  [Connection; Connection;
   Message 0 (register_text "u1"); Message 1 (register_text "u2");
   Close 0].

(** A socket that answers each probe in time. *)
Definition punctual : list event :=
  [Connection; Tick; Pong 0; Tick; Pong 0; Tick].
End Frames.

(** ** More concrete frames and a sample storage *)
Module MoreFrames.
(** [{"type":"register","userId":{"id":"u1"}}] *)
Definition register_object_text : string :=
  "{" +:+ Frames.member "type" "register" +:+ "," +:+ Frames.dq +:+ "userId"
      +:+ Frames.dq +:+ ":{" +:+ Frames.member "id" "u1" +:+ "}}".
Definition register_object_data : json :=
  JObj [("type", JStr "register"); ("userId", JObj [("id", JStr "u1")])].

(** [{"type":"offer","from":"u2","to":{"id":"u1"}}] *)
Definition offer_object_text : string :=
  "{" +:+ Frames.member "type" "offer" +:+ "," +:+ Frames.member "from" "u2"
      +:+ "," +:+ Frames.dq +:+ "to" +:+ Frames.dq +:+ ":{"
      +:+ Frames.member "id" "u1" +:+ "}}".
Definition offer_object_data : json :=
  JObj [("type", JStr "offer"); ("from", JStr "u2");
        ("to", JObj [("id", JStr "u1")])].

(** [JSON.parse] on these two frames and on those of [Frames.table]. *)
Definition JSON_parse : string → option json :=
  Frames.lookup_text
    ((register_object_text, register_object_data)
     :: (offer_object_text, offer_object_data) :: Frames.table).

(** Socket 0 registers under an object; socket 1 is connected. *)
Definition object_registered : list event :=
  [Connection; Connection; Message 0 register_object_text].

(** What happens between two ticks while socket 0 stays silent. *)
Definition meanwhile : list event :=
  [Message 1 (Frames.register_text "u2"); Pong 1; Connection].

Definition ws_u1 : WebSocketClient :=
  {| readyState := OPEN; userId := VStr "u1"; isAlive := Some true |}.
Definition ws_bob : WebSocketClient :=
  {| readyState := OPEN; userId := VStr "bob"; isAlive := Some true |}.
Definition st_two_bobs : relay :=
  (run Frames.JSON_parse Frames.two_bobs initial).1.
End MoreFrames.

Module Store.
(** Two users, the second an expert with three advices in category 1,
    two of them his and one of an expert that does not exist; one chat
    with three messages, created out of time order, and a message of a
    chat that does not exist. *)
Definition history : list mutation :=
  [ CreateUser (InsertUser.mk "asha" []);
    CreateUser (InsertUser.mk "ravi" []);
    CreateExpert (InsertExpert.mk 2 (Some true) []);
    CreateCategory (InsertCategory.mk []);
    CreateAdvice (InsertAdvice.mk 1 1 []);
    CreateAdvice (InsertAdvice.mk 7 1 []);
    CreateAdvice (InsertAdvice.mk 1 1 []);
    CreateChat (InsertChat.mk 1 1 None None []);
    CreateMessage (InsertMessage.mk 1 1 "hello" 300 None []);
    CreateMessage (InsertMessage.mk 1 2 "hi" 100 (Some false) []);
    CreateMessage (InsertMessage.mk 1 2 "again" 300 None []);
    CreateMessage (InsertMessage.mk 9 1 "lost" 50 None []) ].

Definition sample : MemStorage :=
  foldl (λ st op, perform op st) empty_store history.

Definition late_reply : InsertMessage.t :=
  InsertMessage.mk 1 2 "earlier" 10 None [].
End Store.

(** ** Concrete frames as bytes, and more executions *)
Module Wire.
Definition bytes (text : string) : list Byte.byte :=
  String.list_byte_of_string text.

Definition text_frame (text : string) : frame :=
  {| isBinary := false; payload := bytes text |}.


(** The binary frame [{"type":"offer","from":"u2","to":"u1","sdp":"?"}]
    with the byte [FF] in the place of [?]; the text the handler reads
    from it, which has U+FFFD in that place; and what [JSON.parse]
    returns for that text. *)
Definition offer_ff : frame :=
  {| isBinary := true;
     payload :=
       bytes ("{" +:+ Frames.member "type" "offer" +:+ ","
                  +:+ Frames.member "from" "u2" +:+ ","
                  +:+ Frames.member "to" "u1" +:+ ","
                  +:+ Frames.dq +:+ "sdp" +:+ Frames.dq +:+ ":" +:+ Frames.dq)
       ++ [Byte.xff] ++ bytes (Frames.dq +:+ "}") |}.
Definition offer_ff_text : string := toString (payload offer_ff).
Definition offer_ff_data : json :=
  JObj [("type", JStr "offer"); ("from", JStr "u2"); ("to", JStr "u1");
        ("sdp", JStr (String.string_of_list_byte U_FFFD))].

(** [{"type":"offer","from":1e999,"to":"ghost"}]: the number is too
    large for a double and parses to [Infinity]. *)
Definition offer_huge_text : string :=
  "{" +:+ Frames.member "type" "offer" +:+ "," +:+ Frames.dq +:+ "from"
      +:+ Frames.dq +:+ ":1e999," +:+ Frames.member "to" "ghost" +:+ "}".
Definition infinity : N := 2047 * 2 ^ 52.
Definition offer_huge_data : json :=
  JObj [("type", JStr "offer"); ("from", JNum infinity);
        ("to", JStr "ghost")].

(** [JSON.parse] on these two texts and on those of [Frames.table]. *)
Definition JSON_parse : string → option json :=
  Frames.lookup_text
    ((offer_ff_text, offer_ff_data) :: (offer_huge_text, offer_huge_data)
     :: Frames.table).

(** A socket registers as [bob] and leaves; the next one registers as
    [bob] in its turn. *)
Definition reconnect : list event :=
  [Connection; Message 0 (Frames.register_text "bob"); Close 0;
   Connection; Message 1 (Frames.register_text "bob")].

(** A socket registers as [u1], then as [u2], and leaves. *)
Definition renamed : list event :=
  [Connection; Message 0 (Frames.register_text "u1");
   Message 0 (Frames.register_text "u2"); Close 0].

(** A registered socket begins to close; a registered socket stays
    silent over two ticks and is terminated.  In both the ['close']
    event has not fired. *)
Definition leaving : list event :=
  [Connection; Message 0 (Frames.register_text "u1"); Closing 0].
Definition reaped : list event :=
  [Connection; Message 0 (Frames.register_text "u1"); Tick; Tick].
End Wire.

(** * Properties *)

Section message_handler.
Context (JSON_parse : string → option json).
Implicit Types (st : relay) (c r : nat) (message : string) (data : json).

Lemma truthy_to_value a b (j : option json) :
  truthy (to_value a j) = truthy (to_value b j).
Proof. by destruct j as [[]|]. Qed.

Lemma strict_eq_to_value a b (j : option json) s :
  strict_eq_str (to_value a j) s = strict_eq_str (to_value b j) s.
Proof. by destruct j as [[]|]. Qed.

Lemma get_prop_field data name :
  data ≠ JNull → get_prop data name = Normal (field data name).
Proof. by destruct data. Qed.

(** What the handler does with a frame that parses. *)
Lemma on_message_parsed st c message data :
  JSON_parse message = Some data →
  on_message JSON_parse c message st =
    if is_register data
    then (register c (to_value (heap_next st) (field data "userId")) (alloc st), [])
    else if is_signal data
    then (alloc st,
          signal c message (field data "from")
                 (to_value (heap_next st) (field data "to")) st)
    else (alloc st, []).
Proof.
  intros Hp. unfold on_message, message_body, parse. rewrite Hp. simpl.
  assert (data = JNull ∨ data ≠ JNull) as [->|Hn]
    by (destruct data; (by left) || (by right)); [done|].
  rewrite !get_prop_field by done. simpl.
  unfold is_register, is_signal, nonempty.
  rewrite (strict_eq_to_value (heap_next st) 0).
  rewrite !(truthy_to_value (heap_next st) 0).
  destruct (strict_eq_str _ _ && truthy _); [done|].
  by destruct (truthy _ && truthy _ && truthy _).
Qed.

Lemma on_message_unparsed st c message :
  JSON_parse message = None →
  on_message JSON_parse c message st = (alloc st, []).
Proof. intros Hp. unfold on_message, message_body, parse. by rewrite Hp. Qed.
End message_handler.

Lemma sockets_register (c : nat) (v : value) (st : relay) (c' : nat) :
  readyState <$> sockets (register c v st) !! c'
  = readyState <$> sockets st !! c'.
Proof.
  unfold register. simpl.
  destruct (decide (c = c')) as [->|Hne].
  - rewrite list_lookup_alter_eq. by destruct (sockets st !! c').
  - by rewrite list_lookup_alter_ne.
Qed.

Lemma only_send_signal (c : nat) (message : string) (from : option json)
    (to : value) (st : relay) (c' : nat) (text : string) :
  (c', Send text) ∈ signal c message from to st →
  clients_get to st = Some c' ∧ text = message.
Proof.
  unfold signal.
  destruct (clients_get to st) as [r|]; [destruct (is_open st r)|];
    destruct (is_open st c); intros Hin;
    repeat match goal with
    | H : _ ∈ [] |- _ => by apply not_elem_of_nil in H
    | H : _ ∈ [_] |- _ => apply list_elem_of_singleton in H; simplify_eq
    end; done.
Qed.

(** ** Frames on the wire *)

Lemma in_range_true (lo hi : N) (b : Byte.byte) :
  in_range lo hi b = true ↔ (lo ≤ Byte.to_N b ∧ Byte.to_N b ≤ hi)%N.
Proof. unfold in_range. by rewrite andb_true_iff, !N.leb_le. Qed.

Lemma in_range_false (lo hi : N) (b : Byte.byte) :
  in_range lo hi b = false ↔ (Byte.to_N b < lo ∨ hi < Byte.to_N b)%N.
Proof. unfold in_range. by rewrite andb_false_iff, !N.leb_gt. Qed.

Ltac ranges :=
  unfold second_lo, second_hi in *;
  repeat match goal with
  | H : in_range _ _ _ = true |- _ => apply in_range_true in H
  | H : in_range _ _ _ = false |- _ => apply in_range_false in H
  | H : context [(?a =? ?b)%N] |- _ => destruct (N.eqb_spec a b)
  | |- context [(?a =? ?b)%N] => destruct (N.eqb_spec a b)
  end;
  try (apply in_range_true); try lia.

Lemma isValidUTF8_decode_le (n : nat) (l : list Byte.byte) :
  (length l ≤ n)%nat → isValidUTF8 l = true → utf8_decode l = l.
Proof.
  revert l. induction n as [|n IH]; intros l Hn Hv.
  { destruct l; [done|simpl in Hn; lia]. }
  destruct l as [|b l1]; [done|].
  cbn [isValidUTF8] in Hv. cbn [utf8_decode]. cbn [length] in Hn.
  destruct (in_range 0 127 b) eqn:H1.
  { f_equal. apply IH; [lia|done]. }
  destruct (in_range 194 223 b) eqn:H2.
  { assert (in_range 194 244 b = true) as -> by ranges.
    destruct l1 as [|b2 l2]; [done|].
    apply andb_true_iff in Hv as [Hb2 Hv].
    assert (in_range (second_lo b) (second_hi b) b2 = true) as -> by ranges.
    cbn [negb]. do 2 f_equal. apply IH; [cbn [length] in Hn; lia|done]. }
  destruct (in_range 224 239 b) eqn:H3.
  { assert (in_range 194 244 b = true) as -> by ranges.
    destruct l1 as [|b2 [|b3 l3]]; [done..|].
    apply andb_true_iff in Hv as [Hv Hv3].
    apply andb_true_iff in Hv as [Hb2 Hb3].
    rewrite Hb2, Hb3. cbn [negb]. do 3 f_equal.
    apply IH; [cbn [length] in Hn; lia|done]. }
  destruct (in_range 240 244 b) eqn:H4; [|done].
  assert (in_range 194 244 b = true) as -> by ranges.
  destruct l1 as [|b2 [|b3 [|b4 l4]]]; [done..|].
  apply andb_true_iff in Hv as [Hv Hv4].
  apply andb_true_iff in Hv as [Hv Hb4].
  apply andb_true_iff in Hv as [Hb2 Hb3].
  rewrite Hb2, Hb3, Hb4. cbn [negb]. do 4 f_equal.
  apply IH; [cbn [length] in Hn; lia|done].
Qed.

(** Decoding keeps a payload that is well-formed UTF-8 as it is. *)
Lemma isValidUTF8_decode (l : list Byte.byte) :
  isValidUTF8 l = true → utf8_decode l = l.
Proof. by apply (isValidUTF8_decode_le (length l)). Qed.

(** A frame that is delivered is delivered as its decoded payload, and
    a text frame is delivered only if its payload is well-formed. *)
Lemma receive_Some (f : frame) (message : string) :
  receive f = Some message →
  message = toString (payload f)
  ∧ (isBinary f = false → isValidUTF8 (payload f) = true).
Proof.
  unfold receive.
  destruct (isBinary f), (isValidUTF8 (payload f)); simpl; by intros [= <-].
Qed.


Lemma sent_toString (p : list Byte.byte) :
  sent (toString p) = {| isBinary := false; payload := utf8_decode p |}.
Proof.
  unfold sent, toString. by rewrite String.list_byte_of_string_of_list_byte.
Qed.

Lemma written_plain (j : json) : plain j = true → written j = j.
Proof.
  revert j. fix IH 1. intros [| |n|s|items|fields]; try done.
  - cbn [plain written]. intros Hp.
    apply andb_true_iff in Hp as [Hf Hz].
    apply negb_true_iff in Hz. by rewrite Hf, Hz.
  - cbn [plain written]. intros Hp. f_equal.
    induction items as [|x items IHl]; [done|].
    cbn [forallb] in Hp. apply andb_true_iff in Hp as [Hx Hp].
    rewrite fmap_cons. f_equal; [by apply IH|by apply IHl].
  - cbn [plain written]. intros Hp. f_equal.
    induction fields as [|[k v] fields IHl]; [done|].
    cbn [forallb] in Hp. apply andb_true_iff in Hp as [Hx Hp].
    rewrite fmap_cons. f_equal; [f_equal; by apply IH|by apply IHl].
Qed.

Section message_claims.
Context (JSON_parse : string → option json).
Implicit Types (st : relay) (c r : nat) (message : string) (data : json).

(** C1, as amended: a frame that is delivered to the handler and whose
    text is an envelope with non-empty [type], [from] and [to] that is
    not a register message, whose [to] the Registry maps to a socket
    with an open channel, is forwarded to that socket as the text the
    handler read, and nothing else is sent: nothing goes to the sender
    unless the sender is that socket.  What goes out is a text frame
    with the decoded payload: the very payload received when that is
    well-formed UTF-8, so the very frame received when it was a text
    frame. *)
Theorem signal_forwarded_verbatim st c r f message data :
  receive f = Some message →
  JSON_parse message = Some data →
  is_signal data = true →
  is_register data = false →
  recipient st data = Some r →
  is_open st r = true →
  on_message JSON_parse c message st = (alloc st, [(r, Send message)])
  ∧ (attached st c = true →
     step JSON_parse st (deliver c f) = (alloc st, [(r, Send message)]))
  ∧ (r ≠ c → sent_to c (on_message JSON_parse c message st).2 = false)
  ∧ transmitted (on_message JSON_parse c message st).2
    = [(r, Data {| isBinary := false;
                   payload := utf8_decode (payload f) |})]
  ∧ (isValidUTF8 (payload f) = true →
     transmitted (on_message JSON_parse c message st).2
     = [(r, Data {| isBinary := false; payload := payload f |})])
  ∧ (isBinary f = false →
     transmitted (on_message JSON_parse c message st).2 = [(r, Data f)]).
Proof.
  intros Hf Hp Hs Hr Hto Hopen.
  assert (on_message JSON_parse c message st = (alloc st, [(r, Send message)]))
    as Heq.
  { rewrite (on_message_parsed _ _ _ _ _ Hp), Hr, Hs.
    unfold signal. unfold recipient in Hto. by rewrite Hto, Hopen. }
  destruct (receive_Some f message Hf) as [Hm Hvalid].
  assert (transmitted (on_message JSON_parse c message st).2
          = [(r, Data {| isBinary := false;
                         payload := utf8_decode (payload f) |})]) as Htr.
  { rewrite Heq. unfold transmitted. simpl. by rewrite Hm, sent_toString. }
  split_and!; [done| | |done| |].
  - intros Ha. unfold deliver. rewrite Hf. simpl. by rewrite Ha.
  - intros Hne. rewrite Heq. simpl. by rewrite bool_decide_eq_false_2.
  - intros Hv. by rewrite Htr, (isValidUTF8_decode _ Hv).
  - intros Hb. rewrite Htr, (isValidUTF8_decode _ (Hvalid Hb)).
    destruct f as [b p]. simpl in *. by subst.
Qed.

(** C3, as amended: an envelope with non-empty [type], [from] and [to]
    that is not a register message, whose [to] has no registered socket
    with an open channel, makes the relay send, when the sender's own
    channel is open, exactly one message, to the sender: the error
    envelope.  Its [to] is the [from] of the envelope as
    [JSON.stringify] writes it, which is that [from] itself unless it
    holds a number that is not finite or a negative zero. *)
Theorem error_reply_to_sender st c message data :
  JSON_parse message = Some data →
  is_signal data = true →
  is_register data = false →
  available st data = false →
  is_open st c = true →
  ∃ from, field data "from" = Some from
    ∧ on_message JSON_parse c message st =
        (alloc st,
         [(c, SendJSON (JObj [("type", JStr "error");
                              ("message", JStr "Recipient not available");
                              ("from", JStr "server");
                              ("to", from)]))])
    ∧ transmitted (on_message JSON_parse c message st).2
      = [(c, JSONText (JObj [("type", JStr "error");
                             ("message", JStr "Recipient not available");
                             ("from", JStr "server");
                             ("to", written from)]))]
    ∧ (plain from = true → written from = from).
Proof.
  intros Hp Hs Hr Hav Hopen.
  rewrite (on_message_parsed _ _ _ _ _ Hp), Hr, Hs.
  assert (∃ from, field data "from" = Some from) as [from Hfrom].
  { unfold is_signal, nonempty in Hs.
    destruct (field data "from") as [f|]; [by eexists|].
    simpl in Hs. by rewrite andb_false_r in Hs. }
  exists from. split; [done|]. rewrite Hfrom.
  assert (signal c message (Some from)
            (to_value (heap_next st) (field data "to")) st
          = [(c, SendJSON (error_envelope (Some from)))]) as ->.
  { unfold signal. unfold available, recipient in Hav.
    destruct (clients_get _ st) as [r|]; by rewrite ?Hav, Hopen. }
  split_and!; [done|done|apply written_plain].
Qed.


(** C9: an envelope whose [type] is [register] and whose [userId] is
    non-empty is a registration and nothing else, whatever its [from]
    and [to] and whoever is registered under them: no call is made on
    any socket, so nothing is forwarded and no error is returned; the
    Registry holds the sender under the [userId], which the sender now
    has, and every other entry and every other socket is as it was. *)
Theorem register_takes_precedence st c message data :
  JSON_parse message = Some data →
  is_register data = true →
  let uid := to_value (heap_next st) (field data "userId") in
  let r := on_message JSON_parse c message st in
  r.2 = []
  ∧ (attached st c = true → step JSON_parse st (Message c message) = r)
  ∧ truthy uid = true
  ∧ connectedClients r.1 !! map_key uid = Some c
  ∧ (∀ k, k ≠ map_key uid →
       connectedClients r.1 !! k = connectedClients st !! k)
  ∧ sockets r.1 !! c = set_userId uid <$> sockets st !! c
  ∧ (∀ c', c' ≠ c → sockets r.1 !! c' = sockets st !! c').
Proof.
  intros Hp Hr uid r. unfold r, uid.
  rewrite (on_message_parsed _ _ _ _ _ Hp), Hr. simpl.
  split_and!; [done| | | | | |].
  - intros Ha. rewrite Ha. by rewrite (on_message_parsed _ _ _ _ _ Hp), Hr.
  - apply andb_true_iff in Hr as [_ Hu]. unfold nonempty in Hu.
    by rewrite (truthy_to_value (heap_next st) 0).
  - by rewrite lookup_insert_eq.
  - intros k Hk. by rewrite lookup_insert_ne.
  - by rewrite list_lookup_alter_eq.
  - intros c' Hne. by rewrite list_lookup_alter_ne.
Qed.

(** C10, as amended: the calls the handler makes for an envelope are
    the same in two states in which the Registry has the same socket
    under the [to] of the envelope, that socket's channel is open in
    both or in neither, and the sender's channel is open in both or in
    neither.  In particular they do not depend on the identity the
    sender is registered under, if any; nor do the Registry and the
    other sockets the handler leaves. *)
Theorem sender_identity_not_checked st c message :
  (∀ st' data,
     JSON_parse message = Some data →
     recipient st data = recipient st' data →
     available st data = available st' data →
     is_open st c = is_open st' c →
     (on_message JSON_parse c message st).2
     = (on_message JSON_parse c message st').2)
  ∧ ∀ u : value,
      (on_message JSON_parse c message (update_socket c (set_userId u) st)).2
      = (on_message JSON_parse c message st).2
      ∧ connectedClients
          (on_message JSON_parse c message
             (update_socket c (set_userId u) st)).1
        = connectedClients (on_message JSON_parse c message st).1
      ∧ ∀ c', c' ≠ c →
          sockets
            (on_message JSON_parse c message
               (update_socket c (set_userId u) st)).1 !! c'
          = sockets (on_message JSON_parse c message st).1 !! c'.
Proof.
  split.
  - intros st' data Hp Hrec Hav Hopen.
    rewrite !(on_message_parsed _ _ _ _ _ Hp).
    destruct (is_register data); [done|].
    destruct (is_signal data); [|done]. simpl.
    unfold signal. fold (recipient st data) (recipient st' data).
    unfold available in Hav. rewrite <- Hrec in *. rewrite <- Hopen.
    destruct (recipient st data) as [r|]; [|done]. by rewrite <- Hav.
  - intros u. set (st1 := update_socket c (set_userId u) st).
    assert (∀ c', is_open st1 c' = is_open st c') as Ho.
    { intros c'. unfold is_open, st1. simpl.
      destruct (decide (c = c')) as [->|Hne].
      - rewrite list_lookup_alter_eq. by destruct (sockets st !! c').
      - by rewrite list_lookup_alter_ne. }
    assert (∀ c', c' ≠ c → sockets st1 !! c' = sockets st !! c') as Hs.
    { intros c' Hne. unfold st1. simpl. by rewrite list_lookup_alter_ne. }
    destruct (JSON_parse message) as [data|] eqn:Hp.
    + rewrite !(on_message_parsed _ _ _ _ _ Hp).
      destruct (is_register data).
      { simpl. split_and!; [done..|]. intros c' Hne.
        by rewrite !list_lookup_alter_ne. }
      destruct (is_signal data); simpl; [|by auto].
      split_and!; [|done|by auto].
      unfold signal, clients_get. simpl. rewrite !Ho.
      destruct (connectedClients st !! _); by rewrite ?Ho.
    + rewrite !on_message_unparsed by done. simpl. by auto.
Qed.

(** What a register envelope for the string identity [id] looks like
    to the handler. *)
Lemma register_envelope data (id : string) :
  field data "type" = Some (JStr "register") →
  field data "userId" = Some (JStr id) →
  id ≠ EmptyString →
  is_register data = true
  ∧ ∀ addr, to_value addr (field data "userId") = VStr id.
Proof.
  intros Ht Hu Hid. unfold is_register, nonempty. rewrite Ht, Hu. simpl.
  by destruct id.
Qed.

(** C4: a register envelope associates the socket it arrives on with
    its identity in the Registry, in place of any entry that identity
    had, leaves every other entry and the state of every channel as
    they were, the superseded socket's included, and makes no call on
    any socket.  So once [a1] and then [a2] have registered the same
    identity, a signal to that identity goes to [a2], if its channel is
    open, and is sent to no other socket. *)
Theorem register_replaces_entry st (a1 a2 c : nat) (id : string)
    (m1 m2 message : string) (d1 d2 data : json) :
  id ≠ EmptyString →
  JSON_parse m1 = Some d1 →
  field d1 "type" = Some (JStr "register") →
  field d1 "userId" = Some (JStr id) →
  JSON_parse m2 = Some d2 →
  field d2 "type" = Some (JStr "register") →
  field d2 "userId" = Some (JStr id) →
  JSON_parse message = Some data →
  is_signal data = true →
  is_register data = false →
  field data "to" = Some (JStr id) →
  let r1 := on_message JSON_parse a1 m1 st in
  let r2 := on_message JSON_parse a2 m2 r1.1 in
  let r3 := on_message JSON_parse c message r2.1 in
  (r1.2 = [] ∧ r2.2 = [])
  ∧ connectedClients r1.1 !! VStr id = Some a1
  ∧ (∀ k, k ≠ VStr id →
       connectedClients r1.1 !! k = connectedClients st !! k)
  ∧ (∀ c', readyState <$> sockets r1.1 !! c' = readyState <$> sockets st !! c')
  ∧ connectedClients r2.1 !! VStr id = Some a2
  ∧ (∀ k, k ≠ VStr id →
       connectedClients r2.1 !! k = connectedClients st !! k)
  ∧ (∀ c', readyState <$> sockets r2.1 !! c' = readyState <$> sockets st !! c')
  ∧ (is_open r2.1 a2 = true → r3.2 = [(a2, Send message)])
  ∧ (∀ c' text, (c', Send text) ∈ r3.2 → c' = a2).
Proof.
  intros Hid Hp1 Ht1 Hu1 Hp2 Ht2 Hu2 Hp Hs Hr Hto.
  destruct (register_envelope d1 id Ht1 Hu1 Hid) as [Hr1 Hv1].
  destruct (register_envelope d2 id Ht2 Hu2 Hid) as [Hr2 Hv2].
  intros r1 r2 r3. unfold r3, r2, r1.
  rewrite (on_message_parsed _ _ _ _ _ Hp1), Hr1, Hv1. simpl.
  rewrite (on_message_parsed _ _ _ _ _ Hp2), Hr2, Hv2. simpl.
  rewrite (on_message_parsed _ _ _ _ _ Hp), Hr, Hs, Hto. simpl.
  split_and!; try done.
  - by rewrite lookup_insert_eq.
  - intros k Hk. by rewrite lookup_insert_ne.
  - intros c'. apply (sockets_register a1 (VStr id) (alloc st)).
  - by rewrite lookup_insert_eq.
  - intros k Hk. by rewrite !lookup_insert_ne.
  - intros c'.
    rewrite (sockets_register a2 (VStr id) (alloc (register a1 (VStr id) (alloc st)))).
    apply (sockets_register a1 (VStr id) (alloc st)).
  - intros Hopen. unfold signal, clients_get. simpl.
    rewrite lookup_insert_eq.
    change (is_open (register a2 (VStr id) (alloc (register a1 (VStr id) (alloc st)))) a2 = true)
      in Hopen.
    unfold is_open in Hopen |- *. simpl in Hopen |- *. by rewrite Hopen.
  - intros c' text Hin. apply only_send_signal in Hin as [Hget _].
    unfold clients_get in Hget. simpl in Hget.
    rewrite lookup_insert_eq in Hget. congruence.
Qed.
End message_claims.

(** ** The liveness sweep *)

Lemma list_alter_None {A} (f : A → A) (l : list A) (i : nat) :
  l !! i = None → alter f i l = l.
Proof.
  intros Hi. apply list_eq. intros j. rewrite list_lookup_alter.
  case_decide; subst; by rewrite ?Hi.
Qed.

Lemma sweep_client_sockets (c : nat) (st : relay) :
  sockets (sweep_client c st).1 = alter sweep_socket c (sockets st).
Proof.
  unfold sweep_client. destruct (sockets st !! c) as [ws|] eqn:Hc.
  - case_decide as Hd; simpl.
    + destruct (truthy (userId ws)); simpl;
        (apply list_alter_ext; [|done]); intros x Hx; simplify_eq;
        unfold sweep_socket; by rewrite (decide_True _ _ Hd).
    + apply list_alter_ext; [|done]. intros x Hx. simplify_eq.
      unfold sweep_socket. by rewrite (decide_False _ _ Hd).
  - simpl. by rewrite list_alter_None.
Qed.

Lemma sweep_client_effects (c : nat) (st : relay) :
  (sweep_client c st).2 =
    match sockets st !! c with
    | Some ws =>
        if decide (isAlive ws = Some false) then [(c, Terminate)] else [(c, Ping)]
    | None => []
    end.
Proof.
  unfold sweep_client. destruct (sockets st !! c); [|done]. by case_decide.
Qed.

Lemma sweep_client_clients (c : nat) (st : relay) :
  connectedClients (sweep_client c st).1 =
    match sockets st !! c with
    | Some ws =>
        if decide (isAlive ws = Some false) then
          if truthy (userId ws)
          then delete (map_key (userId ws)) (connectedClients st)
          else connectedClients st
        else connectedClients st
    | None => connectedClients st
    end.
Proof.
  unfold sweep_client. destruct (sockets st !! c) as [ws|]; [|done].
  case_decide; [|done]. by destruct (truthy (userId ws)).
Qed.

Lemma sweep_client_absent (c : nat) (st : relay) (k : value) :
  connectedClients st !! k = None →
  connectedClients (sweep_client c st).1 !! k = None.
Proof.
  intros Hk. rewrite sweep_client_clients.
  destruct (sockets st !! c) as [ws|]; [|done].
  case_decide; [|done]. destruct (truthy (userId ws)); [|done].
  rewrite lookup_delete. by case_decide.
Qed.

Lemma for_each_sweep_absent (l : list nat) (st : relay) (k : value) :
  connectedClients st !! k = None →
  connectedClients (for_each sweep_client l st).1 !! k = None.
Proof.
  revert st. induction l as [|c l IH]; intros st Hk; [done|].
  simpl. apply IH. by apply sweep_client_absent.
Qed.

(** Settles the [bool_decide]s of a goal from the hypotheses. *)
Ltac decide_all :=
  repeat first
    [ rewrite bool_decide_eq_true_2 by (done || congruence)
    | rewrite bool_decide_eq_false_2 by (done || congruence) ];
  done.

Lemma pinged_app (c : nat) (e1 e2 : list effect) :
  pinged c (e1 ++ e2) = pinged c e1 || pinged c e2.
Proof. apply existsb_app. Qed.

Lemma terminated_app (c : nat) (e1 e2 : list effect) :
  terminated c (e1 ++ e2) = terminated c e1 || terminated c e2.
Proof. apply existsb_app. Qed.

Lemma sweep_client_silent (c' : nat) (st : relay) (c : nat) :
  c ≠ c' →
  pinged c (sweep_client c' st).2 = false
  ∧ terminated c (sweep_client c' st).2 = false.
Proof.
  intros Hne. rewrite sweep_client_effects.
  destruct (sockets st !! c') as [ws'|]; [|done].
  destruct (decide (isAlive ws' = Some false)); simpl; decide_all.
Qed.

(** A socket the sweep does not visit is left alone. *)
Lemma for_each_sweep_unvisited (l : list nat) (st : relay) (c : nat) :
  c ∉ l →
  sockets (for_each sweep_client l st).1 !! c = sockets st !! c
  ∧ pinged c (for_each sweep_client l st).2 = false
  ∧ terminated c (for_each sweep_client l st).2 = false.
Proof.
  revert st. induction l as [|c' l IH]; intros st Hc; [done|].
  apply not_elem_of_cons in Hc as [Hne Hc]. simpl.
  destruct (IH (sweep_client c' st).1 Hc) as (Hs & Hp & Ht).
  rewrite Hs, pinged_app, terminated_app, Hp, Ht, !orb_false_r.
  rewrite sweep_client_sockets, list_lookup_alter_ne by done.
  split; [done|]. by apply sweep_client_silent.
Qed.

(** A socket the sweep visits, once. *)
Lemma for_each_sweep_visited (l : list nat) (st : relay) (c : nat)
    (ws : WebSocketClient) :
  NoDup l → c ∈ l → sockets st !! c = Some ws →
  sockets (for_each sweep_client l st).1 !! c = Some (sweep_socket ws)
  ∧ pinged c (for_each sweep_client l st).2
    = bool_decide (isAlive ws ≠ Some false)
  ∧ terminated c (for_each sweep_client l st).2
    = bool_decide (isAlive ws = Some false)
  ∧ (isAlive ws = Some false → truthy (userId ws) = true →
     connectedClients (for_each sweep_client l st).1 !! map_key (userId ws)
     = None).
Proof.
  revert st. induction l as [|c' l IH]; intros st Hnd Hc Hws.
  { by apply not_elem_of_nil in Hc. }
  apply NoDup_cons in Hnd as [Hc' Hnd]. simpl.
  rewrite pinged_app, terminated_app.
  apply elem_of_cons in Hc as [->|Hc].
  - destruct (for_each_sweep_unvisited l (sweep_client c' st).1 c' Hc')
      as (Hs & Hp & Ht).
    rewrite Hs, Hp, Ht, !orb_false_r.
    rewrite sweep_client_sockets, sweep_client_effects, Hws.
    rewrite list_lookup_alter_eq, Hws. simpl. split_and!; [done|..].
    + case_decide; simpl; decide_all.
    + case_decide; simpl; decide_all.
    + intros Hd Hu. apply for_each_sweep_absent.
      rewrite sweep_client_clients, Hws, (decide_True _ _ Hd), Hu.
      by rewrite lookup_delete_eq.
  - assert (c ≠ c') as Hne by (intros ->; done).
    assert (sockets (sweep_client c' st).1 !! c = Some ws) as Hws'.
    { rewrite sweep_client_sockets. by rewrite list_lookup_alter_ne. }
    destruct (IH _ Hnd Hc Hws') as (Hs & Hp & Ht & Hk).
    rewrite Hs, Hp, Ht. split_and!; [done| | |done].
    + rewrite (proj1 (sweep_client_silent c' st c Hne)).
      by destruct (bool_decide _).
    + rewrite (proj2 (sweep_client_silent c' st c Hne)).
      by destruct (bool_decide _).
Qed.

Lemma elem_of_wss_clients (st : relay) (c : nat) :
  c ∈ wss_clients st ↔ attached st c = true.
Proof.
  unfold wss_clients. rewrite list_elem_of_filter, elem_of_seq.
  rewrite Is_true_true. split; [by intros []|]. intros Ha. split; [done|].
  unfold attached in Ha. destruct (sockets st !! c) eqn:Hc; [|done].
  apply lookup_lt_Some in Hc. lia.
Qed.

Lemma NoDup_wss_clients (st : relay) : NoDup (wss_clients st).
Proof. apply NoDup_filter, NoDup_seq. Qed.

(** C5: at a timer tick, an open socket whose liveness flag is false is
    terminated, is not probed, and no Registry entry is left under its
    identity if it has one; any other open socket gets its flag set to
    false and is probed.  A pong sets the flag to true, and the flag of a
    new connection is true. *)
Theorem liveness_tick (st : relay) (c : nat) (ws : WebSocketClient) :
  sockets st !! c = Some ws →
  readyState ws = OPEN →
  (isAlive ws = Some false →
     terminated c (pingInterval st).2 = true
     ∧ pinged c (pingInterval st).2 = false
     ∧ sockets (pingInterval st).1 !! c = Some (set_readyState CLOSING ws)
     ∧ (truthy (userId ws) = true →
        clients_get (userId ws) (pingInterval st).1 = None))
  ∧ (isAlive ws ≠ Some false →
     pinged c (pingInterval st).2 = true
     ∧ terminated c (pingInterval st).2 = false
     ∧ sockets (pingInterval st).1 !! c = Some (set_isAlive (Some false) ws))
  ∧ sockets (on_pong c st) !! c = Some (set_isAlive (Some true) ws)
  ∧ sockets (on_connection st) !! length (sockets st)
    = Some {| readyState := OPEN; userId := VUndefined; isAlive := Some true |}.
Proof.
  intros Hws Hopen.
  assert (c ∈ wss_clients st) as Hin.
  { apply elem_of_wss_clients. unfold attached. rewrite Hws.
    apply bool_decide_eq_true_2. congruence. }
  destruct (for_each_sweep_visited _ st c ws (NoDup_wss_clients st) Hin Hws)
    as (Hs & Hp & Ht & Hk).
  fold (pingInterval st) in Hs, Hp, Ht, Hk.
  split_and!.
  - intros Hd. rewrite Hs, Hp, Ht. split_and!; [decide_all|decide_all| |].
    + unfold sweep_socket. rewrite (decide_True _ _ Hd).
      rewrite decide_False by congruence. done.
    + intros Hu. by apply Hk.
  - intros Hd. rewrite Hs, Hp, Ht. split_and!; [decide_all|decide_all|].
    unfold sweep_socket. by rewrite (decide_False _ _ Hd).
  - unfold on_pong. simpl. by rewrite list_lookup_alter_eq, Hws.
  - unfold on_connection. simpl. by rewrite list_lookup_middle.
Qed.

(** C7: the close handler removes the Registry entry under the identity
    of the socket, if it has one, and changes nothing else: the entries
    under every other key stay, and so does every socket, liveness flag
    included.  The same holds of the forced termination of a socket by
    the sweep, which besides marks that one socket as closing. *)
Theorem disconnect_frame (st : relay) (c : nat) (ws : WebSocketClient) :
  sockets st !! c = Some ws →
  (sockets (on_close c st) = sockets st
   ∧ (truthy (userId ws) = true →
      connectedClients (on_close c st)
      = delete (map_key (userId ws)) (connectedClients st)
      ∧ clients_get (userId ws) (on_close c st) = None)
   ∧ (truthy (userId ws) = false →
      connectedClients (on_close c st) = connectedClients st)
   ∧ (∀ k, k ≠ map_key (userId ws) →
      connectedClients (on_close c st) !! k = connectedClients st !! k))
  ∧ (isAlive ws = Some false →
     (sweep_client c st).2 = [(c, Terminate)]
     ∧ (∀ c', c' ≠ c →
        sockets (sweep_client c st).1 !! c' = sockets st !! c')
     ∧ isAlive <$> sockets (sweep_client c st).1 !! c = Some (isAlive ws)
     ∧ (truthy (userId ws) = true →
        connectedClients (sweep_client c st).1
        = delete (map_key (userId ws)) (connectedClients st))
     ∧ (truthy (userId ws) = false →
        connectedClients (sweep_client c st).1 = connectedClients st)
     ∧ (∀ k, k ≠ map_key (userId ws) →
        connectedClients (sweep_client c st).1 !! k
        = connectedClients st !! k)).
Proof.
  intros Hws. split.
  - unfold on_close, clients_get. rewrite Hws.
    destruct (truthy (userId ws)); simpl; split_and!; try done.
    + intros _. by rewrite lookup_delete_eq.
    + intros k Hk. by rewrite lookup_delete_ne.
  - intros Hd.
    rewrite sweep_client_effects, sweep_client_sockets, sweep_client_clients.
    rewrite Hws. destruct (decide (isAlive ws = Some false)); [|done].
    split_and!; try done.
    + intros c' Hne. by rewrite list_lookup_alter_ne.
    + rewrite list_lookup_alter_eq, Hws. simpl. unfold sweep_socket.
      rewrite (decide_True _ _ Hd). by case_decide.
    + by intros ->.
    + by intros ->.
    + intros k Hk. destruct (truthy (userId ws)); [|done].
      by rewrite lookup_delete_ne.
Qed.

(** ** Executions *)

Lemma sockets_on_close (c : nat) (st : relay) :
  sockets (on_close c st) = sockets st.
Proof.
  unfold on_close. destruct (sockets st !! c) as [ws|]; [|done].
  by destruct (truthy (userId ws)).
Qed.

Lemma signal_sends_only (c : nat) (message : string) (from : option json)
    (to : value) (st : relay) (c' : nat) :
  pinged c' (signal c message from to st) = false
  ∧ terminated c' (signal c message from to st) = false.
Proof.
  unfold signal.
  destruct (clients_get to st) as [r|]; [destruct (is_open st r)|];
    by destruct (is_open st c).
Qed.

Section executions_facts.
Context (JSON_parse : string → option json).
Implicit Types (st : relay) (c : nat) (evs : list event).

(** The message handler neither probes nor terminates, and leaves the
    channel state and the liveness flag of every socket. *)
Lemma on_message_liveness c message st c' :
  pinged c' (on_message JSON_parse c message st).2 = false
  ∧ terminated c' (on_message JSON_parse c message st).2 = false
  ∧ ∀ ws', sockets (on_message JSON_parse c message st).1 !! c' = Some ws' →
      ∃ ws, sockets st !! c' = Some ws
            ∧ readyState ws = readyState ws' ∧ isAlive ws = isAlive ws'.
Proof using Type.
  destruct (JSON_parse message) as [data|] eqn:Hp.
  - rewrite (on_message_parsed _ _ _ _ _ Hp).
    destruct (is_register data); [|destruct (is_signal data)]; simpl.
    + split_and!; [done..|]. intros ws'.
      rewrite list_lookup_alter. case_decide as Hc; [subst|by eauto].
      destruct (sockets st !! c') as [ws|]; [|done].
      intros [= <-]. by eauto.
    + pose proof (signal_sends_only c message (field data "from")
        (to_value (heap_next st) (field data "to")) st c') as [? ?].
      split_and!; [done..|by eauto].
    + split_and!; [done..|by eauto].
  - rewrite on_message_unparsed by done. simpl.
    split_and!; [done..|by eauto].
Qed.

(** A probe that is unanswered after an event other than a tick was
    unanswered before it, and the event was not the answer. *)
Lemma pending_before c st ev ws' :
  ev ≠ Tick →
  sockets (step JSON_parse st ev).1 !! c = Some ws' →
  readyState ws' ≠ CLOSED →
  isAlive ws' = Some false →
  terminated c (step JSON_parse st ev).2 = false
  ∧ ev ≠ Pong c
  ∧ ∃ ws, sockets st !! c = Some ws
          ∧ readyState ws ≠ CLOSED ∧ isAlive ws = Some false.
Proof using Type.
  intros Hev Hws' Hr Ha.
  assert (∀ ws, sockets st !! c = Some ws → readyState ws ≠ CLOSED →
          isAlive ws = Some false →
          ∃ ws, sockets st !! c = Some ws
                ∧ readyState ws ≠ CLOSED ∧ isAlive ws = Some false)
    as Hsame by eauto.
  destruct ev as [|c' m|c'|c'|c'|]; simpl in *.
  - split_and!; [done..|].
    destruct (decide (c < length (sockets st))) as [Hlt|Hge].
    + rewrite lookup_app_l in Hws' by done. by eauto.
    + rewrite lookup_app_r in Hws' by lia.
      destruct (c - length (sockets st)) as [|n]; simplify_eq/=.
  - destruct (attached st c'); simpl in *; [|by eauto].
    destruct (on_message_liveness c' m st c) as (_ & Ht & Hk).
    split_and!; [done..|].
    destruct (Hk _ Hws') as (ws & ? & ? & ?).
    apply (Hsame ws); congruence.
  - destruct (attached st c') eqn:Hat; simpl in *.
    + rewrite list_lookup_alter in Hws'. case_decide as Hc; [subst|].
      * destruct (sockets st !! c); simplify_eq/=.
      * split_and!; [done|congruence|by eauto].
    + split_and!; [done| |by eauto]. intros [= ->].
      unfold attached in Hat. rewrite Hws' in Hat.
      by rewrite bool_decide_eq_true_2 in Hat.
  - destruct (is_open st c') eqn:Hop; simpl in *; [|by eauto].
    rewrite list_lookup_alter in Hws'. case_decide as Hc; [subst|by eauto].
    destruct (sockets st !! c) as [ws|] eqn:Hws; simplify_eq/=.
    split_and!; [done..|]. apply (Hsame ws); [done| |done].
    unfold is_open in Hop. rewrite Hws in Hop.
    apply bool_decide_eq_true_1 in Hop. congruence.
  - destruct (attached st c') eqn:Hat; simpl in *; [|by eauto].
    rewrite sockets_on_close in Hws'. simpl in Hws'.
    rewrite list_lookup_alter in Hws'. case_decide as Hc; [subst|by eauto].
    destruct (sockets st !! c) as [ws|] eqn:Hws; simplify_eq/=.
  - done.
Qed.
Lemma run_effects_cons ev evs st :
  (run JSON_parse (ev :: evs) st).2
  = (step JSON_parse st ev).2
    ++ (run JSON_parse evs (step JSON_parse st ev).1).2.
Proof using Type. done. Qed.

Lemma run_state_cons ev evs st :
  (run JSON_parse (ev :: evs) st).1
  = (run JSON_parse evs (step JSON_parse st ev).1).1.
Proof using Type. done. Qed.

Lemma only_tick_terminates c st ev :
  ev ≠ Tick → terminated c (step JSON_parse st ev).2 = false.
Proof using Type.
  intros Hev. destruct ev as [|c' m|c'|c'|c'|]; simpl; try done.
  - destruct (attached st c'); [|done]. apply on_message_liveness.
  - by destruct (attached st c').
  - by destruct (is_open st c').
  - by destruct (attached st c').
Qed.

(** The invariant behind C6: whenever the flag of [c] is false on an
    attached socket, the rest of the execution answers the probe. *)
Lemma responsive_not_terminated c evs st :
  (∀ ws, sockets st !! c = Some ws → readyState ws ≠ CLOSED →
         isAlive ws = Some false → acked c evs = true) →
  responsive JSON_parse c evs st = true →
  terminated c (run JSON_parse evs st).2 = false.
Proof using Type.
  revert st. induction evs as [|ev evs IH]; intros st Hpre Hresp; [done|].
  simpl in Hresp. apply andb_true_iff in Hresp as [Htick Hresp].
  rewrite run_effects_cons, terminated_app.
  destruct (decide (ev = Tick)) as [->|Hev].
  - simpl in *. fold (pingInterval st) in *.
    destruct (decide (c ∈ wss_clients st)) as [Hin|Hout].
    + pose proof Hin as Hat. apply elem_of_wss_clients in Hat.
      unfold attached in Hat.
      destruct (sockets st !! c) as [ws|] eqn:Hws; [|done].
      apply bool_decide_eq_true_1 in Hat.
      destruct (for_each_sweep_visited _ st c ws (NoDup_wss_clients st) Hin Hws)
        as (Hs & Hp & Ht & _).
      fold (pingInterval st) in Hs, Hp, Ht.
      destruct (decide (isAlive ws = Some false)) as [Hd|Hd].
      { by specialize (Hpre ws eq_refl Hat Hd). }
      rewrite Hp, bool_decide_eq_true_2 in Htick by done.
      rewrite Ht, bool_decide_eq_false_2 by done. simpl in *.
      apply IH; [|done]. by intros.
    + destruct (for_each_sweep_unvisited _ st c Hout) as (Hs & _ & Ht).
      fold (pingInterval st) in Hs, Ht. rewrite Ht. simpl.
      apply IH; [|done]. intros ws' Hws' Hr Ha. exfalso. apply Hout.
      apply elem_of_wss_clients. unfold attached.
      rewrite <- Hs, Hws'. by apply bool_decide_eq_true_2.
  - rewrite (only_tick_terminates c st ev Hev). simpl.
    apply IH; [|done]. intros ws' Hws' Hr Ha.
    destruct (pending_before c st ev ws' Hev Hws' Hr Ha)
      as (_ & Hnp & ws & Hws & Hr0 & Ha0).
    specialize (Hpre ws Hws Hr0 Ha0).
    destruct ev as [|c' m|c'|c'|c'|]; simpl in Hpre; try done.
    rewrite bool_decide_eq_false_2 in Hpre by congruence. done.
Qed.

(** C6: in an execution in which socket [c] answers every probe sent
    to it before the next tick, the sweep never takes the dead branch
    for [c]: no tick calls [terminate] on it. *)
Theorem responsive_never_terminated c evs :
  responsive JSON_parse c evs initial = true →
  terminated c (run JSON_parse evs initial).2 = false.
Proof using Type.
  apply responsive_not_terminated. by intros ws [=].
Qed.
End executions_facts.

(** ** The Registry and the registrations *)

Lemma lookup_alter_Some_inv {A} (f : A → A) (c : nat) (ss : list A)
    (c' : nat) (x' : A) :
  alter f c ss !! c' = Some x' →
  ∃ x, ss !! c' = Some x ∧ ((c' ≠ c ∧ x' = x) ∨ (c' = c ∧ x' = f x)).
Proof.
  rewrite list_lookup_alter. case_decide as Hc; [subst|by eauto].
  destruct (ss !! c') as [x|]; [|done]. intros [= <-]. by eauto.
Qed.

Section registry_invariants.
Context (L : list (nat * value)).
Implicit Types (ss : list WebSocketClient) (m : gmap value nat)
  (ws : WebSocketClient) (c : nat) (v k : value).

Lemma logged_alter f c ss m :
  (∀ ws, userId (f ws) = userId ws) →
  logged L ss m → logged L (alter f c ss) m.
Proof.
  intros Hu [La Lb]. split.
  - intros k c' Hk. destruct (La k c' Hk) as [? [ws Hws]]. split; [done|].
    rewrite list_lookup_alter. case_decide; subst; rewrite ?Hws; by eauto.
  - intros c' ws' Hws'.
    apply lookup_alter_Some_inv in Hws' as (ws & Hws & [[_ ->]|[-> ->]]);
      rewrite ?Hu; by eauto.
Qed.

Lemma logged_delete k ss m : logged L ss m → logged L ss (delete k m).
Proof.
  intros [La Lb]. split; [|done]. intros k' c Hk.
  apply lookup_delete_Some in Hk as [_ Hk]. by eauto.
Qed.

Lemma logged_register c ws v ss m :
  ss !! c = Some ws → truthy v = true → (c, map_key v) ∈ L →
  logged L ss m →
  logged L (alter (set_userId v) c ss) (<[map_key v := c]> m).
Proof.
  intros Hws Hv Hin [La Lb]. split.
  - intros k c' Hk. rewrite list_lookup_alter.
    apply lookup_insert_Some in Hk as [[<- <-]|[Hne Hk]].
    + rewrite decide_True, Hws by done. by eauto.
    + destruct (La k c' Hk) as [? [ws' Hws']]. split; [done|].
      case_decide; subst; rewrite ?Hws'; by eauto.
  - intros c' ws' Hws'.
    apply lookup_alter_Some_inv in Hws' as (ws0 & Hws0 & [[_ ->]|[-> ->]]);
      by eauto.
Qed.

Lemma logged_snoc ws ss m :
  truthy (userId ws) = false → logged L ss m → logged L (ss ++ [ws]) m.
Proof.
  intros Hu [La Lb]. split.
  - intros k c Hk. destruct (La k c Hk) as [? [ws' Hws']]. split; [done|].
    exists ws'. by apply lookup_app_l_Some.
  - intros c ws' Hws' Ht.
    apply lookup_snoc_Some in Hws' as [[_ Hws']|[_ <-]]; [by eauto|].
    congruence.
Qed.
End registry_invariants.

Section registry_exact.
Implicit Types (ss : list WebSocketClient) (m : gmap value nat)
  (ws : WebSocketClient) (c : nat) (v k : value).

Lemma holds_true k ws :
  holds k ws = true
  ↔ readyState ws ≠ CLOSED ∧ truthy (userId ws) = true
    ∧ map_key (userId ws) = k.
Proof.
  unfold holds. rewrite !andb_true_iff, !bool_decide_eq_true.
  split; [by intros [[? ?] ?]|by intros (? & ? & ?)].
Qed.

Lemma exact_alter f c ss m :
  (∀ ws, userId (f ws) = userId ws) →
  (∀ ws, readyState (f ws) = OPEN → readyState ws = OPEN) →
  (∀ ws, readyState ws ≠ CLOSED → readyState (f ws) ≠ CLOSED) →
  exact ss m → exact (alter f c ss) m.
Proof.
  intros Hu Ho Hc [H2 H3]. split.
  - intros k c' Hk. destruct (H2 k c' Hk) as (ws & Hws & Hkey & Ht & Hr).
    rewrite list_lookup_alter.
    case_decide; subst; rewrite Hws; simpl; eexists; (split; [done|]);
      rewrite ?Hu; by auto.
  - intros c' ws' Hws' Ht Hr.
    apply lookup_alter_Some_inv in Hws' as (ws & Hws & [[_ ->]|[-> ->]]);
      [by eauto|].
    rewrite Hu in *. by eauto.
Qed.

Lemma exact_snoc ws ss m :
  truthy (userId ws) = false → exact ss m → exact (ss ++ [ws]) m.
Proof.
  intros Hu [H2 H3]. split.
  - intros k c Hk. destruct (H2 k c Hk) as (ws' & Hws' & ?).
    exists ws'. split; [|done]. by apply lookup_app_l_Some.
  - intros c ws' Hws' Ht Hr.
    apply lookup_snoc_Some in Hws' as [[_ Hws']|[_ <-]]; [by eauto|].
    congruence.
Qed.

Lemma distinct_alter f c ss :
  (∀ ws, userId (f ws) = userId ws) →
  (∀ ws, ss !! c = Some ws →
     readyState (f ws) ≠ CLOSED → readyState ws ≠ CLOSED) →
  distinct ss → distinct (alter f c ss).
Proof.
  intros Hu Hc Hd c1 c2 ws1 ws2 H1 H2 Hne Ht Hr.
  apply lookup_alter_Some_inv in H1 as (w1 & Hw1 & Hx1).
  apply lookup_alter_Some_inv in H2 as (w2 & Hw2 & Hx2).
  assert (userId ws1 = userId w1
          ∧ (readyState ws1 ≠ CLOSED → readyState w1 ≠ CLOSED)) as [Hu1 Hr1]
    by (destruct Hx1 as [[_ ->]|[-> ->]]; by auto).
  assert (userId ws2 = userId w2
          ∧ (readyState ws2 ≠ CLOSED → readyState w2 ≠ CLOSED)) as [Hu2 Hr2]
    by (destruct Hx2 as [[_ ->]|[-> ->]]; by auto).
  rewrite Hu1 in *.
  pose proof (Hd c1 c2 w1 w2 Hw1 Hw2 Hne Ht (Hr1 Hr)) as Hh.
  destruct (holds (map_key (userId w1)) ws2) eqn:Hh2; [|done].
  apply holds_true in Hh2 as (? & ? & ?). rewrite Hu2 in *.
  rewrite <- Hh. symmetry. apply holds_true. by auto.
Qed.

Lemma distinct_snoc ws ss :
  truthy (userId ws) = false → distinct ss → distinct (ss ++ [ws]).
Proof.
  intros Hu Hd c1 c2 ws1 ws2 H1 H2 Hne Ht Hr.
  apply lookup_snoc_Some in H1 as [[_ H1]|[_ <-]]; [|congruence].
  apply lookup_snoc_Some in H2 as [[_ H2]|[_ <-]]; [by eauto|].
  unfold holds. by rewrite Hu, andb_false_r.
Qed.

(** A socket leaves: its channel is no longer open and the entry under
    its identity, if it has one, is deleted. *)
Lemma exact_drop g c ws ss m :
  (∀ ws, userId (g ws) = userId ws) →
  ss !! c = Some ws →
  readyState ws ≠ CLOSED →
  readyState (g ws) ≠ OPEN →
  distinct ss → exact ss m →
  exact (alter g c ss)
    (if truthy (userId ws) then delete (map_key (userId ws)) m else m).
Proof.
  intros Hu Hws Hat Hno Hd [H2 H3]. split.
  - intros k c' Hk.
    assert (m !! k = Some c'
            ∧ (truthy (userId ws) = true → k ≠ map_key (userId ws)))
      as [Hm Hkne].
    { destruct (truthy (userId ws)); [|done].
      apply lookup_delete_Some in Hk as [? ?]. by auto. }
    destruct (H2 k c' Hm) as (ws0 & Hws0 & Hkey & Ht & Hr).
    assert (c' ≠ c) as Hne.
    { intros ->. rewrite Hws in Hws0. simplify_eq. by apply Hkne. }
    exists ws0. by rewrite list_lookup_alter_ne.
  - intros c' ws' Hws' Ht Hr.
    apply lookup_alter_Some_inv in Hws' as (ws0 & Hws0 & [[Hne ->]|[-> ->]]).
    + pose proof (H3 c' ws0 Hws0 Ht Hr) as Hm.
      destruct (truthy (userId ws)) eqn:Htw; [|done].
      rewrite lookup_delete_ne; [done|]. intros Hk.
      assert (holds (map_key (userId ws)) ws0 = true) as Hh.
      { apply holds_true. split_and!; [congruence|done..]. }
      by rewrite (Hd c c' ws ws0 Hws Hws0) in Hh.
    + rewrite Hws in Hws0. by simplify_eq.
Qed.

Lemma exact_register c ws v ss m :
  ss !! c = Some ws → readyState ws ≠ CLOSED →
  truthy v = true →
  (truthy (userId ws) = true → map_key (userId ws) = map_key v) →
  (∀ c' ws', ss !! c' = Some ws' → c' ≠ c → holds (map_key v) ws' = false) →
  exact ss m →
  exact (alter (set_userId v) c ss) (<[map_key v := c]> m).
Proof.
  intros Hws Hr Hv Hown Hfree [H2 H3]. split.
  - intros k c' Hk.
    apply lookup_insert_Some in Hk as [[<- <-]|[Hne Hk]].
    + exists (set_userId v ws). by rewrite list_lookup_alter_eq, Hws.
    + destruct (H2 k c' Hk) as (ws0 & Hws0 & Hkey & Ht & Hr0).
      assert (c' ≠ c) as Hc.
      { intros ->. rewrite Hws in Hws0. simplify_eq. apply Hne.
        symmetry. by apply Hown. }
      exists ws0. by rewrite list_lookup_alter_ne.
  - intros c' ws' Hws' Ht Hr'.
    apply lookup_alter_Some_inv in Hws' as (ws0 & Hws0 & [[Hne ->]|[-> ->]]).
    + rewrite lookup_insert_ne; [by eauto|]. intros Hk.
      assert (holds (map_key v) ws0 = true) as Hh.
      { apply holds_true. split_and!; [congruence|done..]. }
      by rewrite (Hfree c' ws0) in Hh.
    + simpl. by rewrite lookup_insert_eq.
Qed.

Lemma distinct_register c ws v ss :
  ss !! c = Some ws →
  (∀ c' ws', ss !! c' = Some ws' → c' ≠ c → holds (map_key v) ws' = false) →
  distinct ss → distinct (alter (set_userId v) c ss).
Proof.
  intros Hws Hfree Hd c1 c2 ws1 ws2 H1 H2 Hne Ht Hr.
  apply lookup_alter_Some_inv in H1 as (w1 & Hw1 & [[Hc1 ->]|[-> ->]]);
    apply lookup_alter_Some_inv in H2 as (w2 & Hw2 & [[Hc2 ->]|[-> ->]]);
    [by eauto| |by eauto|done].
  destruct (holds (map_key (userId w1)) (set_userId v w2)) eqn:Hh; [|done].
  apply holds_true in Hh as (_ & _ & Hk). simpl in Hk.
  assert (holds (map_key v) w1 = true) as Hh1
    by (apply holds_true; by auto).
  by rewrite (Hfree c1 w1) in Hh1.
Qed.
End registry_exact.

Lemma sweep_socket_userId (ws : WebSocketClient) :
  userId (sweep_socket ws) = userId ws.
Proof. unfold sweep_socket. by repeat case_decide. Qed.

Lemma sweep_socket_open (ws : WebSocketClient) :
  readyState (sweep_socket ws) = OPEN → readyState ws = OPEN.
Proof. unfold sweep_socket. by repeat case_decide. Qed.

Lemma sweep_socket_attached (ws : WebSocketClient) :
  readyState ws ≠ CLOSED → readyState (sweep_socket ws) ≠ CLOSED.
Proof. unfold sweep_socket. by repeat case_decide. Qed.

Lemma sweep_socket_dead (ws : WebSocketClient) :
  isAlive ws = Some false → readyState (sweep_socket ws) ≠ OPEN.
Proof.
  intros Hd. unfold sweep_socket. rewrite (decide_True _ _ Hd).
  case_decide; simpl; congruence.
Qed.

Lemma sweep_socket_was_attached (ws : WebSocketClient) :
  readyState (sweep_socket ws) ≠ CLOSED → readyState ws ≠ CLOSED.
Proof. unfold sweep_socket. by repeat case_decide. Qed.

(** What [may_register] says. *)
Lemma may_register_true (st : relay) (c : nat) (k : value) :
  may_register st (c, k) = true →
  (∀ ws, sockets st !! c = Some ws →
     truthy (userId ws) = true → map_key (userId ws) = k)
  ∧ (∀ c' ws', sockets st !! c' = Some ws' → c' ≠ c → holds k ws' = false).
Proof.
  unfold may_register. rewrite forallb_forall. intros Hall.
  assert (∀ c' ws', sockets st !! c' = Some ws' →
            if decide (c' = c)
            then negb (truthy (userId ws'))
                 || bool_decide (map_key (userId ws') = k) = true
            else negb (holds k ws') = true) as Hat.
  { intros c' ws' Hws'. specialize (Hall c').
    rewrite Hws' in Hall. simpl in Hall.
    assert (In c' (seq 0 (length (sockets st)))) as Hin.
    { apply in_seq. apply lookup_lt_Some in Hws'. lia. }
    specialize (Hall Hin). by case_decide. }
  split.
  - intros ws Hws Ht. specialize (Hat c ws Hws).
    rewrite decide_True, Ht in Hat by done.
    by apply bool_decide_eq_true_1 in Hat.
  - intros c' ws' Hws' Hne. specialize (Hat c' ws' Hws').
    rewrite decide_False in Hat by done. by apply negb_true_iff.
Qed.

Section registry_steps.
Context (JSON_parse : string → option json).
Implicit Types (st : relay) (c : nat) (evs : list event).

Abbreviation in_order st :=
  (exact (sockets st) (connectedClients st) ∧ distinct (sockets st)).

Section logs.
Context (L : list (nat * value)).

Abbreviation logged_in st := (logged L (sockets st) (connectedClients st)).

Lemma sweep_client_logged c st :
  logged_in st → logged_in (sweep_client c st).1.
Proof using Type.
  intros Hl. rewrite sweep_client_sockets, sweep_client_clients.
  apply (logged_alter L sweep_socket c) in Hl; [|apply sweep_socket_userId].
  destruct (sockets st !! c) as [ws|]; [|done].
  case_decide; [|done]. destruct (truthy (userId ws)); [|done].
  by apply logged_delete.
Qed.

Lemma for_each_sweep_logged (l : list nat) st :
  logged_in st → logged_in (for_each sweep_client l st).1.
Proof using Type.
  revert st. induction l as [|c l IH]; intros st Hl; [done|].
  simpl. by apply IH, sweep_client_logged.
Qed.

(** One event keeps the Registry within the log when its registration
    is in the log. *)
Lemma step_logged st ev :
  (∀ p, p ∈ registration JSON_parse st ev → p ∈ L) →
  logged_in st → logged_in (step JSON_parse st ev).1.
Proof using Type.
  intros Hreg Hl. destruct ev as [|c message|c|c|c|]; simpl.
  - by apply logged_snoc.
  - simpl in Hreg. unfold attached in *.
    destruct (sockets st !! c) as [ws|] eqn:Hws; [|done].
    case_bool_decide as Hr; [|done]. simpl in Hreg.
    destruct (JSON_parse message) as [data|] eqn:Hp;
      [|by rewrite on_message_unparsed].
    rewrite (on_message_parsed _ _ _ _ _ Hp).
    destruct (is_register data) eqn:Hd;
      [|by destruct (is_signal data)].
    apply andb_true_iff in Hd as Hd'. destruct Hd' as [_ Hv].
    unfold nonempty in Hv.
    rewrite (truthy_to_value 0 (heap_next st)) in Hv.
    assert ((c, map_key (to_value (heap_next st) (field data "userId"))) ∈ L)
      as Hin by (apply Hreg, list_elem_of_singleton; done).
    simpl. by apply (logged_register L c ws).
  - destruct (attached st c); [|done]. simpl. by apply logged_alter.
  - destruct (is_open st c); [|done]. simpl. by apply logged_alter.
  - unfold attached. destruct (sockets st !! c) as [ws|] eqn:Hws; [|done].
    case_bool_decide as Hr; [|done]. unfold on_close. simpl.
    rewrite list_lookup_alter_eq, Hws. simpl.
    apply (logged_alter L (set_readyState CLOSED) c) in Hl; [|done].
    destruct (truthy (userId ws)); [|done]. by apply logged_delete.
  - by apply for_each_sweep_logged.
Qed.

Lemma run_logged evs st :
  (∀ p, p ∈ registrations JSON_parse evs st → p ∈ L) →
  logged_in st → logged_in (run JSON_parse evs st).1.
Proof using Type.
  revert st. induction evs as [|ev evs IH]; intros st Hreg Hl; [done|].
  rewrite run_state_cons. simpl in Hreg. apply IH.
  - intros p Hp. apply Hreg, elem_of_app. by right.
  - apply step_logged; [|done]. intros p Hp. apply Hreg, elem_of_app. by left.
Qed.
End logs.

Lemma sweep_client_in_order c st :
  attached st c = true → in_order st → in_order (sweep_client c st).1.
Proof using Type.
  intros Ha [He Hd]. rewrite sweep_client_sockets, sweep_client_clients.
  unfold attached in Ha.
  destruct (sockets st !! c) as [ws|] eqn:Hws; [|done].
  apply bool_decide_eq_true_1 in Ha.
  split; [|by apply distinct_alter;
             [apply sweep_socket_userId
             |intros ws' _; apply sweep_socket_was_attached|]].
  case_decide as Hdead.
  - by apply (exact_drop sweep_socket c ws);
      [apply sweep_socket_userId| | |apply sweep_socket_dead|..].
  - by apply exact_alter;
      [apply sweep_socket_userId|apply sweep_socket_open
      |apply sweep_socket_attached|].
Qed.

Lemma sweep_client_attached c c' st :
  attached (sweep_client c st).1 c' = attached st c'.
Proof using Type.
  unfold attached. rewrite sweep_client_sockets, list_lookup_alter.
  case_decide; [subst|done].
  destruct (sockets st !! c') as [ws|]; [|done]. simpl.
  unfold sweep_socket. repeat case_decide; simpl; try done.
Qed.

Lemma for_each_sweep_in_order (l : list nat) st :
  (∀ c, c ∈ l → attached st c = true) →
  in_order st → in_order (for_each sweep_client l st).1.
Proof using Type.
  revert st. induction l as [|c l IH]; intros st Hall Hin; [done|].
  simpl. apply IH.
  - intros c' Hc'. rewrite sweep_client_attached.
    apply Hall, elem_of_cons. by right.
  - apply sweep_client_in_order; [|done]. apply Hall, elem_of_cons. by left.
Qed.

(** One event whose registration is in order keeps the Registry
    exact. *)
Lemma step_in_order st ev :
  forallb (may_register st) (registration JSON_parse st ev) = true →
  in_order st → in_order (step JSON_parse st ev).1.
Proof using Type.
  intros Hreg [He Hd]. destruct ev as [|c message|c|c|c|]; simpl.
  - split; [by apply exact_snoc|by apply distinct_snoc].
  - simpl in Hreg. unfold attached in *.
    destruct (sockets st !! c) as [ws|] eqn:Hws; [|done].
    case_bool_decide as Hr; [|done]. simpl in Hreg.
    destruct (JSON_parse message) as [data|] eqn:Hp;
      [|by rewrite on_message_unparsed].
    rewrite (on_message_parsed _ _ _ _ _ Hp).
    destruct (is_register data) eqn:Hreg';
      [|by destruct (is_signal data)].
    apply andb_true_iff in Hreg' as Hd'. destruct Hd' as [_ Hv].
    unfold nonempty in Hv.
    rewrite (truthy_to_value 0 (heap_next st)) in Hv.
    simpl in Hreg. rewrite andb_true_r in Hreg.
    apply may_register_true in Hreg as [Hown Hfree].
    simpl. split.
    + by apply (exact_register c ws); [..|apply Hown|apply Hfree|].
    + by apply (distinct_register c ws).
  - destruct (attached st c); [|done]. simpl.
    split; [by apply exact_alter|by apply distinct_alter].
  - unfold is_open. destruct (sockets st !! c) as [ws|] eqn:Hws; [|done].
    case_bool_decide as Hr; [|done]. simpl.
    split; [by apply exact_alter|]. apply distinct_alter; [done| |done].
    intros ws' Hws' _. rewrite Hws in Hws'. simplify_eq. congruence.
  - unfold attached. destruct (sockets st !! c) as [ws|] eqn:Hws; [|done].
    case_bool_decide as Hr; [|done]. unfold on_close. simpl.
    rewrite list_lookup_alter_eq, Hws. simpl. split.
    + pose proof (exact_drop (set_readyState CLOSED) c ws _ _
                    (λ _, eq_refl) Hws Hr ltac:(done) Hd He) as Hx.
      by destruct (truthy (userId ws)).
    + assert (distinct (alter (set_readyState CLOSED) c (sockets st))) as Hd'
        by (by apply distinct_alter).
      by destruct (truthy (userId ws)).
  - apply for_each_sweep_in_order; [|done].
    intros c Hc. by apply elem_of_wss_clients in Hc.
Qed.

Lemma run_in_order evs st :
  orderly JSON_parse evs st = true →
  in_order st → in_order (run JSON_parse evs st).1.
Proof using Type.
  revert st. induction evs as [|ev evs IH]; intros st Ho Hin; [done|].
  rewrite run_state_cons. simpl in Ho. apply andb_true_iff in Ho as [Ho1 Ho2].
  apply IH; [done|]. by apply step_in_order.
Qed.
End registry_steps.

Section registry_claim.
Context (JSON_parse : string → option json).

(** C2, as amended: at every reachable state, a socket is in the
    Registry under a key only if it has processed a register envelope
    for that key.  In an execution in which no socket registers an
    identity that another socket holds whose ['close'] event has not
    fired, and no socket that has an identity registers another, a
    socket in the Registry is there under its identity and its
    ['close'] event has not fired; and every socket that has registered
    and whose channel is open is in the Registry under its identity. *)
Theorem registry_of_registered (evs : list event) :
  (∀ k c,
     connectedClients (run JSON_parse evs initial).1 !! k = Some c →
     (c, k) ∈ registrations JSON_parse evs initial)
  ∧ (orderly JSON_parse evs initial = true →
     (∀ k c,
        connectedClients (run JSON_parse evs initial).1 !! k = Some c →
        ∃ ws, sockets (run JSON_parse evs initial).1 !! c = Some ws
              ∧ map_key (userId ws) = k
              ∧ truthy (userId ws) = true
              ∧ readyState ws ≠ CLOSED)
     ∧ (∀ c ws,
          sockets (run JSON_parse evs initial).1 !! c = Some ws →
          truthy (userId ws) = true →
          readyState ws = OPEN →
          connectedClients (run JSON_parse evs initial).1
            !! map_key (userId ws) = Some c)).
Proof using Type.
  split.
  - destruct (run_logged JSON_parse (registrations JSON_parse evs initial)
                evs initial) as [La _]; [done|by split|].
    intros k c Hk. by apply La.
  - intros Ho. apply (run_in_order JSON_parse evs initial Ho).
    split; [by split|]. by intros c1 c2 ws1 ws2 H1.
Qed.
End registry_claim.

(** * More properties of the relay *)

Lemma truthy_map_key (v : value) : truthy v = true → map_key v = v.
Proof.
  destruct v as [| | |n| |]; [done..| |done|done].
  unfold truthy, map_key. intros Hn.
  apply negb_true_iff, orb_false_iff in Hn as [Hz Hn]. by rewrite Hz, Hn.
Qed.

Section handler_frame.
Context (JSON_parse : string → option json).
Implicit Types (st : relay) (c : nat) (message : string).

(** What a frame does to the state: nothing but the allocation, or the
    registration of the sender under a truthy value. *)
Lemma on_message_state c message st :
  (on_message JSON_parse c message st).1 = alloc st
  ∨ ∃ data, JSON_parse message = Some data ∧ is_register data = true
      ∧ truthy (to_value (heap_next st) (field data "userId")) = true
      ∧ (on_message JSON_parse c message st).1
        = register c (to_value (heap_next st) (field data "userId")) (alloc st).
Proof using Type.
  destruct (JSON_parse message) as [data|] eqn:Hp.
  - rewrite (on_message_parsed _ _ _ _ _ Hp).
    destruct (is_register data) eqn:Hr; [|left; by destruct (is_signal data)].
    right. exists data. split_and!; [done..| |done].
    apply andb_true_iff in Hr as [_ Hu]. unfold nonempty in Hu.
    by rewrite (truthy_to_value (heap_next st) 0).
  - left. by rewrite on_message_unparsed.
Qed.


(** X2.  A frame makes at most one call, a send on a socket whose
    channel is open: the sender, for the error reply, or the socket the
    Registry holds under the [to] of the frame. *)
Theorem on_message_sends_to_open c message st :
  (length (on_message JSON_parse c message st).2 ≤ 1)%nat
  ∧ ∀ c', sent_to c' (on_message JSON_parse c message st).2 = true →
      is_open st c' = true
      ∧ (c' = c
         ∨ ∃ data, JSON_parse message = Some data
                   ∧ recipient st data = Some c').
Proof using Type.
  assert (∀ P : nat → Prop,
            (length (@nil effect) ≤ 1)%nat
            ∧ ∀ c', sent_to c' [] = true → P c') as Hnil
    by (intros P; split; [simpl; lia|done]).
  destruct (JSON_parse message) as [data|] eqn:Hp;
    [|rewrite on_message_unparsed by done; apply Hnil].
  rewrite (on_message_parsed _ _ _ _ _ Hp).
  destruct (is_register data); [apply Hnil|].
  destruct (is_signal data); [|apply Hnil]. simpl.
  unfold signal. fold (recipient st data).
  destruct (recipient st data) as [r|] eqn:Hr;
    [destruct (is_open st r) eqn:Hor|];
    destruct (is_open st c) eqn:Hoc; try apply Hnil;
    (split; [simpl; lia|]); intros c' Hs; simpl in Hs;
    rewrite orb_false_r in Hs; apply bool_decide_eq_true_1 in Hs;
    subst; by eauto.
Qed.
End handler_frame.

(** ** One firing of the timer, in full *)

Lemma tick_call_sweep_other (c c' : nat) (st : relay) :
  c' ≠ c → tick_call (sweep_client c st).1 c' = tick_call st c'.
Proof.
  intros Hne. unfold tick_call.
  by rewrite sweep_client_sockets, list_lookup_alter_ne.
Qed.

Lemma for_each_sweep_calls (l : list nat) (st : relay) :
  NoDup l → (∀ c, c ∈ l → is_Some (sockets st !! c)) →
  (for_each sweep_client l st).2 = (λ c, (c, tick_call st c)) <$> l.
Proof.
  revert st. induction l as [|c l IH]; intros st Hnd Hall; [done|].
  apply NoDup_cons in Hnd as [Hc Hnd].
  change (for_each sweep_client (c :: l) st).2
    with ((sweep_client c st).2
          ++ (for_each sweep_client l (sweep_client c st).1).2).
  rewrite fmap_cons.
  assert ((sweep_client c st).2 = [(c, tick_call st c)]) as ->.
  { rewrite sweep_client_effects. unfold tick_call.
    destruct (Hall c) as [ws ->]; [apply elem_of_cons; by left|].
    by destruct (decide (isAlive ws = Some false)). }
  simpl. f_equal. rewrite IH; [|done|].
  - apply list_fmap_ext. intros i c' Hi. f_equal.
    apply tick_call_sweep_other. intros ->.
    apply Hc. by eapply list_elem_of_lookup_2.
  - intros c' Hc'. rewrite sweep_client_sockets, list_lookup_alter_ne.
    + apply Hall, elem_of_cons. by right.
    + intros ->. done.
Qed.

(** The entries a sweep over [l] leaves are those no visited socket
    with a false flag is registered under. *)
Lemma for_each_sweep_clients (l : list nat) (st : relay) (k : value) (c0 : nat) :
  NoDup l →
  connectedClients (for_each sweep_client l st).1 !! k = Some c0
  ↔ connectedClients st !! k = Some c0
    ∧ ∀ c ws, c ∈ l → sockets st !! c = Some ws →
        isAlive ws = Some false → truthy (userId ws) = true →
        map_key (userId ws) ≠ k.
Proof.
  revert st. induction l as [|c l IH]; intros st Hnd.
  { simpl. split; [intros ?; split; [done|]|by intros []].
    intros c ws Hc. by apply not_elem_of_nil in Hc. }
  apply NoDup_cons in Hnd as [Hc Hnd]. simpl. rewrite (IH _ Hnd).
  rewrite sweep_client_clients.
  assert (∀ c', c' ∈ l →
            sockets (sweep_client c st).1 !! c' = sockets st !! c') as Hsame.
  { intros c' Hc'. rewrite sweep_client_sockets, list_lookup_alter_ne; [done|].
    by intros ->. }
  split.
  - intros [Hk Hl]. split.
    + destruct (sockets st !! c) as [ws|]; [|done].
      case_decide; [|done]. destruct (truthy (userId ws)); [|done].
      by apply lookup_delete_Some in Hk as [_ ?].
    + intros c' ws' Hc' Hws' Hd Ht.
      apply elem_of_cons in Hc' as [->|Hc'].
      * rewrite Hws' in Hk. rewrite (decide_True _ _ Hd), Ht in Hk.
        apply lookup_delete_Some in Hk as [? _]. done.
      * apply (Hl c' ws' Hc'); [|done..]. by rewrite Hsame.
  - intros [Hk Hl]. split.
    + destruct (sockets st !! c) as [ws|] eqn:Hws; [|done].
      case_decide as Hd; [|done].
      destruct (truthy (userId ws)) eqn:Ht; [|done].
      apply lookup_delete_Some. split; [|done].
      apply (Hl c ws); [apply elem_of_cons; by left|done..].
    + intros c' ws' Hc' Hws'. rewrite Hsame in Hws' by done.
      apply (Hl c' ws'); [apply elem_of_cons; by right|done].
Qed.

(** X3.  One firing of [pingInterval], in full.  It makes one call on
    each attached socket, in order of arrival: [terminate] if the flag
    of the socket is false, [ping] otherwise.  Attached sockets change
    as [sweep_socket] says and closed ones do not.  The Registry loses
    the entries under the identities of the attached sockets whose flag
    is false, and nothing else. *)
Theorem pingInterval_in_full (st : relay) :
  (pingInterval st).2 = (λ c, (c, tick_call st c)) <$> wss_clients st
  ∧ (∀ c, sockets (pingInterval st).1 !! c
          = (λ ws, if decide (readyState ws = CLOSED) then ws
                   else sweep_socket ws) <$> sockets st !! c)
  ∧ (∀ k c, connectedClients (pingInterval st).1 !! k = Some c
            ↔ connectedClients st !! k = Some c
              ∧ ¬ ∃ c', reaped_key st c' k).
Proof.
  assert (∀ c, c ∈ wss_clients st →
            ∃ ws, sockets st !! c = Some ws ∧ readyState ws ≠ CLOSED) as Hcl.
  { intros c Hc. apply elem_of_wss_clients in Hc. unfold attached in Hc.
    destruct (sockets st !! c) as [ws|]; [|done].
    apply bool_decide_eq_true_1 in Hc. by eauto. }
  split_and!.
  - apply for_each_sweep_calls; [apply NoDup_wss_clients|].
    intros c Hc. destruct (Hcl c Hc) as (ws & -> & _). by eauto.
  - intros c. destruct (decide (c ∈ wss_clients st)) as [Hc|Hc].
    + destruct (Hcl c Hc) as (ws & Hws & Hr).
      destruct (for_each_sweep_visited _ st c ws (NoDup_wss_clients st) Hc Hws)
        as (Hs & _). fold (pingInterval st) in Hs.
      rewrite Hs, Hws. simpl. by rewrite decide_False.
    + destruct (for_each_sweep_unvisited _ st c Hc) as (Hs & _).
      fold (pingInterval st) in Hs. rewrite Hs.
      destruct (sockets st !! c) as [ws|] eqn:Hws; [|done]. simpl.
      case_decide as Hr; [done|]. exfalso. apply Hc.
      apply elem_of_wss_clients. unfold attached. rewrite Hws.
      by apply bool_decide_eq_true_2.
  - intros k c. unfold pingInterval.
    rewrite (for_each_sweep_clients _ st k c (NoDup_wss_clients st)).
    split; intros [Hk Hl]; (split; [done|]).
    + intros (c' & ws & Hws & Hr & Hd & Ht & Hkey).
      apply (Hl c' ws); [|done..].
      apply elem_of_wss_clients. unfold attached. rewrite Hws.
      by apply bool_decide_eq_true_2.
    + intros c' ws Hc' Hws Hd Ht Hkey. apply Hl. exists c', ws.
      destruct (Hcl c' Hc') as (ws' & Hws' & Hr). by simplify_eq.
Qed.

(** ** Executions, continued *)

Lemma sweep_socket_flag (ws : WebSocketClient) :
  isAlive (sweep_socket ws) = Some false.
Proof. unfold sweep_socket. by repeat case_decide. Qed.

Section more_executions.
Context (JSON_parse : string → option json).
Implicit Types (st : relay) (c : nat) (evs : list event).

Lemma run_app evs1 evs2 st :
  run JSON_parse (evs1 ++ evs2) st
  = ((run JSON_parse evs2 (run JSON_parse evs1 st).1).1,
     (run JSON_parse evs1 st).2
     ++ (run JSON_parse evs2 (run JSON_parse evs1 st).1).2).
Proof using Type.
  revert st. induction evs1 as [|ev evs1 IH]; intros st.
  { simpl. by destruct (run JSON_parse evs2 st). }
  simpl. rewrite IH. simpl. by rewrite app_assoc.
Qed.

(** An unanswered probe stays unanswered over a quiet event. *)
Lemma pending_after c st ev ws :
  quiet c ev = true →
  sockets st !! c = Some ws → readyState ws ≠ CLOSED →
  isAlive ws = Some false →
  ∃ ws', sockets (step JSON_parse st ev).1 !! c = Some ws'
         ∧ readyState ws' ≠ CLOSED ∧ isAlive ws' = Some false.
Proof using Type.
  intros Hq Hws Hr Ha. destruct ev as [|c' m|c'|c'|c'|]; simpl in *.
  - exists ws. split; [|done]. by apply lookup_app_l_Some.
  - destruct (attached st c'); simpl; [|by eauto].
    destruct (on_message_state JSON_parse c' m st)
      as [->|(data & _ & _ & _ & ->)]; [by eauto|].
    unfold register. simpl. rewrite list_lookup_alter.
    case_decide; subst; [|by eauto]. rewrite Hws. simpl. by eauto.
  - apply negb_true_iff, bool_decide_eq_false_1 in Hq.
    destruct (attached st c'); simpl; [|by eauto].
    exists ws. by rewrite list_lookup_alter_ne.
  - destruct (is_open st c'); simpl; [|by eauto].
    rewrite list_lookup_alter. case_decide; subst; [|by eauto].
    rewrite Hws. simpl. by eauto.
  - apply negb_true_iff, bool_decide_eq_false_1 in Hq.
    destruct (attached st c'); simpl; [|by eauto].
    rewrite sockets_on_close. simpl.
    exists ws. by rewrite list_lookup_alter_ne.
  - done.
Qed.

Lemma pending_through c evs st ws :
  forallb (quiet c) evs = true →
  sockets st !! c = Some ws → readyState ws ≠ CLOSED →
  isAlive ws = Some false →
  ∃ ws', sockets (run JSON_parse evs st).1 !! c = Some ws'
         ∧ readyState ws' ≠ CLOSED ∧ isAlive ws' = Some false.
Proof using Type.
  revert st ws. induction evs as [|ev evs IH]; intros st ws Hq Hws Hr Ha.
  { by eauto. }
  simpl in Hq. apply andb_true_iff in Hq as [Hq Hqs].
  destruct (pending_after c st ev ws Hq Hws Hr Ha) as (ws1 & Hws1 & Hr1 & Ha1).
  rewrite run_state_cons. by apply (IH _ ws1).
Qed.

(** X4.  A socket that is attached at a tick and from which no pong
    arrives before the next tick is terminated by that next tick at the
    latest, whatever else happens in between: it is then closing, and no
    Registry entry is left under its identity, if it has one. *)
Theorem silent_socket_reaped c evs st ws :
  sockets st !! c = Some ws →
  readyState ws ≠ CLOSED →
  forallb (quiet c) evs = true →
  terminated c (run JSON_parse (Tick :: evs ++ [Tick]) st).2 = true
  ∧ ∃ ws', sockets (run JSON_parse (Tick :: evs ++ [Tick]) st).1 !! c
           = Some ws'
      ∧ readyState ws' = CLOSING
      ∧ isAlive ws' = Some false
      ∧ (truthy (userId ws') = true →
         clients_get (userId ws')
           (run JSON_parse (Tick :: evs ++ [Tick]) st).1 = None).
Proof using Type.
  intros Hws Hr Hq.
  assert (c ∈ wss_clients st) as Hin1.
  { apply elem_of_wss_clients. unfold attached. rewrite Hws.
    by apply bool_decide_eq_true_2. }
  destruct (for_each_sweep_visited _ st c ws (NoDup_wss_clients st) Hin1 Hws)
    as (Hs1 & _).
  fold (pingInterval st) in Hs1.
  destruct (pending_through c evs (pingInterval st).1 (sweep_socket ws) Hq Hs1)
    as (ws2 & Hws2 & Hr2 & Ha2);
    [by apply sweep_socket_attached|apply sweep_socket_flag|].
  rewrite run_effects_cons, run_state_cons, run_app. simpl.
  change (step JSON_parse st Tick) with (pingInterval st).
  set (st2 := (run JSON_parse evs (pingInterval st).1).1) in *.
  assert (c ∈ wss_clients st2) as Hin.
  { apply elem_of_wss_clients. unfold attached. rewrite Hws2.
    by apply bool_decide_eq_true_2. }
  destruct (for_each_sweep_visited _ st2 c ws2 (NoDup_wss_clients st2) Hin Hws2)
    as (Hs & _ & Ht & Hk).
  fold (pingInterval st2) in Hs, Ht, Hk.
  destruct (pingInterval st2) as [st3 eff3] eqn:Hp3. simpl in *.
  split.
  - rewrite !terminated_app, Ht, bool_decide_eq_true_2 by done.
    simpl. by rewrite !orb_true_r.
  - exists (sweep_socket ws2). split; [done|].
    unfold sweep_socket. rewrite (decide_True _ _ Ha2).
    rewrite decide_False by done. simpl. split_and!; [done..|].
    intros Hu. by apply Hk.
Qed.

(** X5.  After the ['close'] event of a socket, a signal to the identity
    that socket was registered under is not delivered: the sender, if
    its channel is open, gets the error reply.  It is so whichever
    socket the Registry held under that identity, also another socket
    that registered it later and is still connected. *)
Theorem close_unregisters_identity c ws st s message data :
  sockets st !! c = Some ws →
  readyState ws ≠ CLOSED →
  truthy (userId ws) = true →
  JSON_parse message = Some data →
  is_signal data = true →
  is_register data = false →
  map_key (to_value (heap_next st) (field data "to")) = map_key (userId ws) →
  is_open (step JSON_parse st (Close c)).1 s = true →
  clients_get (userId ws) (step JSON_parse st (Close c)).1 = None
  ∧ (on_message JSON_parse s message (step JSON_parse st (Close c)).1).2
    = [(s, SendJSON (error_envelope (field data "from")))].
Proof using Type.
  intros Hws Hr Hu Hp Hs Hreg Hto. simpl. unfold attached. rewrite Hws.
  rewrite bool_decide_eq_true_2 by done. simpl.
  unfold on_close. simpl. rewrite list_lookup_alter_eq, Hws. simpl.
  rewrite Hu. intros Hopen.
  assert (clients_get (userId ws)
            (clients_delete (userId ws)
               (update_socket c (set_readyState CLOSED) st)) = None) as Hnone.
  { unfold clients_get. simpl. by rewrite lookup_delete_eq. }
  split; [done|].
  rewrite (on_message_parsed _ _ _ _ _ Hp), Hreg, Hs. simpl.
  unfold signal. rewrite Hopen.
  unfold clients_get in *. simpl in *. by rewrite Hto, Hnone.
Qed.
End more_executions.

(** ** What every reachable state satisfies *)

Lemma allocated_mono (n m : nat) (v : value) :
  (n ≤ m)%nat → allocated n v → allocated m v.
Proof. destruct v; simpl; try done. lia. Qed.

Lemma allocated_to_value (n : nat) (j : option json) :
  allocated (S n) (to_value n j).
Proof. destruct j as [[]|]; simpl; try done; lia. Qed.

Lemma well_formed_alter (f : WebSocketClient → WebSocketClient) (c : nat)
    (st : relay) :
  (∀ ws, userId (f ws) = userId ws) →
  (∀ ws, is_Some (isAlive ws) → is_Some (isAlive (f ws))) →
  well_formed st → well_formed (update_socket c f st).
Proof.
  intros Hu Ha [Hs Hm]. split.
  - intros c' ws' Hws'. simpl in *.
    apply lookup_alter_Some_inv in Hws' as (ws & Hws & [[_ ->]|[-> ->]]);
      [by eauto|].
    destruct (Hs _ _ Hws) as (? & ? & ?). rewrite Hu. by auto.
  - intros k c' Hk. simpl. rewrite length_alter. by apply Hm.
Qed.

Lemma well_formed_delete (v : value) (st : relay) :
  well_formed st → well_formed (clients_delete v st).
Proof.
  intros [Hs Hm]. split; [done|]. intros k c Hk. simpl in Hk.
  apply lookup_delete_Some in Hk as [_ Hk]. by apply Hm.
Qed.

Lemma well_formed_alloc (st : relay) : well_formed st → well_formed (alloc st).
Proof.
  intros [Hs Hm]. split.
  - intros c ws Hws. destruct (Hs c ws Hws) as (? & ? & ?).
    split_and!; [done..|]. apply (allocated_mono (heap_next st)); [simpl; lia|done].
  - intros k c Hk. destruct (Hm k c Hk) as (? & ? & ? & ?).
    split_and!; [done..| |done].
    apply (allocated_mono (heap_next st)); [simpl; lia|done].
Qed.

Lemma well_formed_register (c : nat) (v : value) (st : relay) :
  truthy v = true → allocated (heap_next st) v →
  c < length (sockets st) →
  well_formed st → well_formed (register c v st).
Proof.
  intros Hv Hal Hc [Hs Hm]. split.
  - intros c' ws' Hws'. simpl in *.
    apply lookup_alter_Some_inv in Hws' as (ws & Hws & [[_ ->]|[-> ->]]);
      [by eauto|].
    destruct (Hs _ _ Hws) as (? & ? & ?). simpl. by auto.
  - intros k c' Hk. simpl in *. rewrite length_alter.
    rewrite (truthy_map_key v Hv) in Hk.
    apply lookup_insert_Some in Hk as [[<- <-]|[_ Hk]]; [|by apply Hm].
    split_and!; [done|by apply truthy_map_key|done..].
Qed.

Lemma well_formed_sweep_client (c : nat) (st : relay) :
  well_formed st → well_formed (sweep_client c st).1.
Proof.
  intros Hwf. unfold sweep_client.
  destruct (sockets st !! c) as [ws|]; [|done].
  case_decide; simpl.
  - apply well_formed_alter; [intros ws'; by case_decide
                             |intros ws'; by case_decide|].
    destruct (truthy (userId ws)); [by apply well_formed_delete|done].
  - apply well_formed_alter; [done|by eauto|done].
Qed.

Lemma well_formed_for_each_sweep (l : list nat) (st : relay) :
  well_formed st → well_formed (for_each sweep_client l st).1.
Proof.
  revert st. induction l as [|c l IH]; intros st Hwf; [done|].
  simpl. by apply IH, well_formed_sweep_client.
Qed.

Section reachable_states.
Context (JSON_parse : string → option json).
Implicit Types (st : relay) (c : nat) (evs : list event).

Lemma well_formed_step st ev :
  well_formed st → well_formed (step JSON_parse st ev).1.
Proof using Type.
  intros Hwf. destruct ev as [|c m|c|c|c|]; simpl.
  - destruct Hwf as [Hs Hm]. split.
    + intros c ws Hws. simpl in Hws.
      apply lookup_snoc_Some in Hws as [[_ Hws]|[_ <-]]; [by eauto|].
      simpl. split_and!; [by eauto|by left|done].
    + intros k c Hk. simpl in *. rewrite length_app. simpl.
      destruct (Hm k c Hk) as (? & ? & ? & ?). split_and!; [done..|lia].
  - unfold attached. destruct (sockets st !! c) as [ws|] eqn:Hws; [|done].
    case_bool_decide; [|done].
    destruct (on_message_state JSON_parse c m st)
      as [->|(data & _ & _ & Hv & ->)]; [by apply well_formed_alloc|].
    apply well_formed_register; [done|apply allocated_to_value| |].
    + simpl. by apply lookup_lt_Some in Hws.
    + by apply well_formed_alloc.
  - destruct (attached st c); [|done]. simpl.
    apply well_formed_alter; [done|by eauto|done].
  - destruct (is_open st c); [|done]. simpl.
    by apply well_formed_alter.
  - destruct (attached st c); [|done]. simpl. unfold on_close.
    destruct (sockets _ !! c) as [ws|]; [|by apply well_formed_alter].
    destruct (truthy (userId ws)); [|by apply well_formed_alter].
    by apply well_formed_delete, well_formed_alter.
  - by apply well_formed_for_each_sweep.
Qed.

Lemma well_formed_run evs st :
  well_formed st → well_formed (run JSON_parse evs st).1.
Proof using Type.
  revert st. induction evs as [|ev evs IH]; intros st Hwf; [done|].
  rewrite run_state_cons. by apply IH, well_formed_step.
Qed.

(** X6.  In every state the relay reaches from server start: the
    liveness flag of every socket is set, so that the sweep's test
    [isAlive === false] is the test of a boolean; the [userId] of a
    socket is unset or truthy; and the Registry has only truthy keys and
    names only sockets the server has accepted. *)
Theorem reachable_well_formed evs :
  (∀ c ws, sockets (run JSON_parse evs initial).1 !! c = Some ws →
     is_Some (isAlive ws)
     ∧ (userId ws = VUndefined ∨ truthy (userId ws) = true))
  ∧ (∀ k c, connectedClients (run JSON_parse evs initial).1 !! k = Some c →
       truthy k = true
       ∧ is_Some (sockets (run JSON_parse evs initial).1 !! c)).
Proof using Type.
  destruct (well_formed_run evs initial) as [Hs Hm]; [by split|].
  split.
  - intros c ws Hws. destruct (Hs c ws Hws) as (? & ? & _). done.
  - intros k c Hk. destruct (Hm k c Hk) as (? & _ & _ & Hlt).
    split; [done|]. by apply lookup_lt_is_Some.
Qed.

(** X7.  An object or an array is a key by identity, and each frame is
    parsed into fresh objects: in every reachable state a signal whose
    [to] is an object or an array is forwarded to nobody, whatever was
    registered before; it is answered by the error reply, or by nothing
    when the channel of the sender is not open. *)
Theorem object_recipient_unreachable evs c message data :
  JSON_parse message = Some data →
  is_signal data = true →
  is_register data = false →
  is_ref (field data "to") = true →
  (on_message JSON_parse c message (run JSON_parse evs initial).1).2
  = if is_open (run JSON_parse evs initial).1 c
    then [(c, SendJSON (error_envelope (field data "from")))]
    else [].
Proof using Type.
  intros Hp Hs Hr Href.
  destruct (well_formed_run evs initial) as [_ Hm]; [by split|].
  set (st := (run JSON_parse evs initial).1) in *.
  rewrite (on_message_parsed _ _ _ _ _ Hp), Hr, Hs. simpl.
  assert (to_value (heap_next st) (field data "to") = VRef (heap_next st))
    as ->.
  { by destruct (field data "to") as [[]|]. }
  unfold signal, clients_get. simpl.
  destruct (connectedClients st !! VRef (heap_next st)) as [r|] eqn:Hk;
    [|done].
  destruct (Hm _ _ Hk) as (_ & _ & Hal & _). simpl in Hal. lia.
Qed.
End reachable_states.

(** * Properties of the in-memory storage *)

(** ** The [Map] *)

Section js_map.
Context {V : Type}.
Implicit Types (m : list (N * V)) (k : N) (v : V).

Lemma js_get_set_eq k v m : js_get k (js_set k v m) = Some v.
Proof.
  induction m as [|[k' v'] m IH]; simpl.
  - by rewrite N.eqb_refl.
  - destruct (k' =? k)%N eqn:Hk; simpl; [by rewrite N.eqb_refl|].
    by rewrite Hk.
Qed.

Lemma js_get_set_ne k k' v m :
  k ≠ k' → js_get k' (js_set k v m) = js_get k' m.
Proof.
  intros Hne. induction m as [|[k0 v0] m IH]; simpl.
  - by rewrite (proj2 (N.eqb_neq k k')).
  - destruct (k0 =? k)%N eqn:Hk; simpl.
    + apply N.eqb_eq in Hk as ->.
      by rewrite (proj2 (N.eqb_neq k k')).
    + by rewrite IH.
Qed.

Lemma js_get_None k m : js_get k m = None ↔ k ∉ m.*1.
Proof.
  induction m as [|[k' v'] m IH]; simpl.
  - split; [intros _; apply not_elem_of_nil|done].
  - rewrite not_elem_of_cons, <- IH.
    destruct (k' =? k)%N eqn:Hk.
    + apply N.eqb_eq in Hk as ->. split; [done|]. by intros [? _].
    + apply N.eqb_neq in Hk. split; [by intros ?|by intros [_ ?]].
Qed.

Lemma js_get_elem k v m : js_get k m = Some v → (k, v) ∈ m.
Proof.
  induction m as [|[k' v'] m IH]; simpl; [done|].
  destruct (k' =? k)%N eqn:Hk.
  - apply N.eqb_eq in Hk as ->. intros [= ->]. apply elem_of_cons. by left.
  - intros Hg. apply elem_of_cons. right. by apply IH.
Qed.

Lemma js_elem_get k v m : NoDup m.*1 → (k, v) ∈ m → js_get k m = Some v.
Proof.
  induction m as [|[k' v'] m IH]; simpl; intros Hnd Hin.
  { by apply not_elem_of_nil in Hin. }
  apply NoDup_cons in Hnd as [Hk' Hnd].
  apply elem_of_cons in Hin as [[= -> ->]|Hin]; [by rewrite N.eqb_refl|].
  destruct (k' =? k)%N eqn:Hk; [|by apply IH].
  apply N.eqb_eq in Hk as ->. exfalso. apply Hk'.
  apply list_elem_of_fmap. by exists (k, v).
Qed.

(** A new key goes last. *)
Lemma js_set_fresh k v m : js_get k m = None → js_set k v m = m ++ [(k, v)].
Proof.
  induction m as [|[k' v'] m IH]; simpl; [done|].
  destruct (k' =? k)%N; [done|]. intros Hg. by rewrite IH.
Qed.

(** An existing key keeps its place. *)
Lemma js_set_keys k v m : is_Some (js_get k m) → (js_set k v m).*1 = m.*1.
Proof.
  induction m as [|[k' v'] m IH]; simpl; [by intros [? ?]|].
  destruct (k' =? k)%N eqn:Hk.
  - apply N.eqb_eq in Hk as ->. done.
  - intros Hg. rewrite !fmap_cons. f_equal. by apply IH.
Qed.

Lemma js_set_elem k v k' v' m :
  NoDup m.*1 →
  (k', v') ∈ js_set k v m ↔ (k' = k ∧ v' = v) ∨ ((k', v') ∈ m ∧ k' ≠ k).
Proof.
  intros Hnd. destruct (js_get k m) as [v0|] eqn:Hg.
  - split.
    + intros Hin. destruct (decide (k' = k)) as [->|Hne].
      * left. split; [done|].
        assert (js_get k (js_set k v m) = Some v') as Hg'.
        { apply js_elem_get; [|done]. rewrite js_set_keys; by eauto. }
        rewrite js_get_set_eq in Hg'. congruence.
      * right. split; [|done]. apply js_get_elem.
        rewrite <- (js_get_set_ne k k' v) by done.
        apply js_elem_get; [|done]. rewrite js_set_keys; by eauto.
    + intros [[-> ->]|[Hin Hne]]; apply js_get_elem.
      * apply js_get_set_eq.
      * rewrite js_get_set_ne by done. by apply js_elem_get.
  - rewrite js_set_fresh, elem_of_app, list_elem_of_singleton by done.
    apply js_get_None in Hg. split.
    + intros [Hin|[= -> ->]]; [|by left]. right. split; [done|].
      intros ->. apply Hg. apply list_elem_of_fmap. by exists (k, v').
    + intros [[-> ->]|[Hin _]]; [by right|by left].
Qed.

(** Creation: the counter is a new key. *)
Lemma table_ok_create (id : V → N) m (current : N) v :
  table_ok id m current → (current < max_safe)%N → id v = current →
  js_get current m = None
  ∧ table_ok id (js_set current v m) (next_id current).
Proof.
  intros (Hnd & Hid & Hmax) Hroom Hv.
  assert (js_get current m = None) as Hfresh.
  { apply js_get_None. intros Hin.
    apply list_elem_of_fmap in Hin as ([k v'] & -> & Hin).
    destruct (Hid _ _ Hin) as [_ Hlt]. simpl in Hlt. lia. }
  split; [done|]. unfold next_id.
  rewrite (proj2 (N.ltb_lt _ _) Hroom). split_and!.
  - rewrite js_set_fresh, fmap_app by done. apply NoDup_app.
    split_and!; [done| |apply NoDup_singleton].
    intros k Hk Hk'. apply list_elem_of_singleton in Hk' as ->.
    by apply js_get_None in Hfresh.
  - intros k v' Hin. apply (js_set_elem _ _ _ _ _ Hnd) in Hin as [[-> ->]|[Hin _]].
    + split; [done|lia].
    + destruct (Hid _ _ Hin). split; [done|lia].
  - lia.
Qed.

(** Rewriting: a record is put back under its own id. *)
Lemma table_ok_update (id : V → N) m (current : N) k v :
  table_ok id m current → id v = k → (k < current)%N →
  table_ok id (js_set k v m) current.
Proof.
  intros (Hnd & Hid & Hmax) Hv Hk. split_and!; [|..|done].
  - destruct (js_get k m) as [v0|] eqn:Hg.
    + rewrite js_set_keys; by eauto.
    + rewrite js_set_fresh, fmap_app by done. apply NoDup_app.
      split_and!; [done| |apply NoDup_singleton].
      intros k' Hk1 Hk2. apply list_elem_of_singleton in Hk2 as ->.
      by apply js_get_None in Hg.
  - intros k' v' Hin. apply (js_set_elem _ _ _ _ _ Hnd) in Hin as [[-> ->]|[Hin _]].
    + done.
    + by apply Hid.
Qed.
End js_map.

(** ** Messages in time order *)

Lemma insert_by_time_perm (m : Message.t) (l : list Message.t) :
  insert_by_time m l ≡ₚ m :: l.
Proof.
  induction l as [|m' l IH]; simpl; [done|].
  destruct (Message.timestamp m <=? Message.timestamp m')%Z; [done|].
  rewrite IH. apply Permutation_swap.
Qed.

Lemma sort_by_time_perm (l : list Message.t) : sort_by_time l ≡ₚ l.
Proof.
  induction l as [|m l IH]; simpl; [done|].
  rewrite insert_by_time_perm. by rewrite IH.
Qed.

Lemma insert_by_time_sorted (m : Message.t) (l : list Message.t) :
  StronglySorted time_le l → StronglySorted time_le (insert_by_time m l).
Proof.
  induction l as [|m' l IH]; simpl; intros Hs.
  { by repeat constructor. }
  apply StronglySorted_inv in Hs as [Hs Hall].
  destruct (Message.timestamp m <=? Message.timestamp m')%Z eqn:Hle.
  - apply Z.leb_le in Hle. constructor; [by constructor|].
    constructor; [done|].
    eapply Forall_impl; [exact Hall|]. unfold time_le. intros x. lia.
  - apply Z.leb_gt in Hle. constructor; [by apply IH|].
    rewrite insert_by_time_perm. constructor; [|done].
    unfold time_le. lia.
Qed.

Lemma sort_by_time_sorted (l : list Message.t) :
  StronglySorted time_le (sort_by_time l).
Proof.
  induction l as [|m l IH]; simpl; [constructor|].
  by apply insert_by_time_sorted.
Qed.

(** The insertion keeps the messages of one instant in their order. *)
Lemma insert_by_time_stable (t : Z) (m : Message.t) (l : list Message.t) :
  filter (λ x, Message.timestamp x = t) (insert_by_time m l)
  = filter (λ x, Message.timestamp x = t) (m :: l).
Proof.
  induction l as [|m' l IH]; simpl; [done|].
  destruct (Message.timestamp m <=? Message.timestamp m')%Z eqn:Hle; [done|].
  apply Z.leb_gt in Hle. rewrite (filter_cons _ m'), IH, !filter_cons.
  repeat case_decide; try done; lia.
Qed.

Lemma sort_by_time_stable (t : Z) (l : list Message.t) :
  filter (λ x, Message.timestamp x = t) (sort_by_time l)
  = filter (λ x, Message.timestamp x = t) l.
Proof.
  induction l as [|m l IH]; simpl; [done|].
  by rewrite insert_by_time_stable, !filter_cons, IH.
Qed.

(** X8.  [getMessagesByChat] returns the messages of the chat, each
    once, in the order of their timestamps, and those of one timestamp
    in the order they were created in. *)
Theorem getMessagesByChat_in_time_order (chatId : N) (st : MemStorage) :
  StronglySorted time_le (getMessagesByChat chatId st)
  ∧ getMessagesByChat chatId st
    ≡ₚ filter (λ message, Message.chatId message = chatId)
              (js_values (messages st))
  ∧ ∀ t, filter (λ x, Message.timestamp x = t) (getMessagesByChat chatId st)
         = filter (λ x, Message.timestamp x = t)
             (filter (λ message, Message.chatId message = chatId)
                     (js_values (messages st))).
Proof.
  unfold getMessagesByChat. split_and!.
  - apply sort_by_time_sorted.
  - apply sort_by_time_perm.
  - intros t. apply sort_by_time_stable.
Qed.

Lemma elem_of_getMessagesByChat (chatId : N) (st : MemStorage)
    (message : Message.t) :
  message ∈ getMessagesByChat chatId st
  ↔ Message.chatId message = chatId
    ∧ ∃ k, (k, message) ∈ messages st.
Proof.
  unfold getMessagesByChat. rewrite sort_by_time_perm.
  rewrite list_elem_of_filter. unfold js_values.
  rewrite list_elem_of_fmap. split.
  - intros [? ([k m] & -> & ?)]. by eauto.
  - intros [? [k ?]]. split; [done|]. by exists (k, message).
Qed.

(** ** Marking messages as read *)

Lemma markOne_messages (userId : N) (st : MemStorage) (message : Message.t) :
  messages (markOne userId st message)
  = (if negb (Message.senderId message =? userId)%N && unread message
     then js_set (Message.id message) (read message) (messages st)
     else messages st)
  ∧ currentMessageId (markOne userId st message) = currentMessageId st
  ∧ users (markOne userId st message) = users st
  ∧ experts (markOne userId st message) = experts st
  ∧ categories (markOne userId st message) = categories st
  ∧ advices (markOne userId st message) = advices st
  ∧ chats (markOne userId st message) = chats st
  ∧ payments (markOne userId st message) = payments st
  ∧ currentUserId (markOne userId st message) = currentUserId st
  ∧ currentExpertId (markOne userId st message) = currentExpertId st
  ∧ currentCategoryId (markOne userId st message) = currentCategoryId st
  ∧ currentAdviceId (markOne userId st message) = currentAdviceId st
  ∧ currentChatId (markOne userId st message) = currentChatId st
  ∧ currentPaymentId (markOne userId st message) = currentPaymentId st.
Proof.
  unfold markOne.
  by destruct (negb (Message.senderId message =? userId)%N && unread message).
Qed.

(** The messages after [markAllRead], when the messages read before
    are still those stored. *)
Lemma markAllRead_get (l : list Message.t) (userId : N) (st : MemStorage)
    (k : N) :
  NoDup (Message.id <$> l) →
  (∀ m, m ∈ l → js_get (Message.id m) (messages st) = Some m) →
  js_get k (messages (markAllRead l userId st))
  = (if decide (k ∈ Message.id <$> l) then marked userId else id)
      <$> js_get k (messages st).
Proof.
  revert st. induction l as [|m l IH]; intros st Hnd Hall.
  { simpl. by destruct (js_get k (messages st)). }
  rewrite fmap_cons in Hnd. apply NoDup_cons in Hnd as [Hm Hnd].
  change (markAllRead (m :: l) userId st)
    with (markAllRead l userId (markOne userId st m)).
  destruct (markOne_messages userId st m) as (Hmsgs & _).
  assert (∀ k', k' ≠ Message.id m →
            js_get k' (messages (markOne userId st m))
            = js_get k' (messages st)) as Hother.
  { intros k' Hne. rewrite Hmsgs.
    destruct (negb _ && _); [|done]. by rewrite js_get_set_ne. }
  assert (js_get (Message.id m) (messages (markOne userId st m))
          = Some (marked userId m)) as Hthis.
  { rewrite Hmsgs. unfold marked.
    destruct (negb _ && _); [by rewrite js_get_set_eq|].
    apply Hall, elem_of_cons. by left. }
  rewrite IH; [|done|].
  - destruct (decide (k = Message.id m)) as [->|Hne].
    + rewrite Hthis, (Hall m) by (apply elem_of_cons; by left).
      rewrite decide_False by done.
      rewrite decide_True by (rewrite fmap_cons; apply elem_of_cons; by left).
      done.
    + rewrite Hother by done.
      destruct (js_get k (messages st)) as [m0|]; [|done].
      rewrite fmap_cons.
      destruct (decide (k ∈ Message.id <$> l)) as [Hin|Hout].
      * rewrite decide_True; [done|]. apply elem_of_cons. by right.
      * rewrite decide_False; [done|]. rewrite not_elem_of_cons. done.
  - intros m' Hm'. rewrite Hother.
    + apply Hall, elem_of_cons. by right.
    + intros Heq. apply Hm. rewrite <- Heq.
      apply list_elem_of_fmap. by exists m'.
Qed.

Lemma markAllRead_keys (l : list Message.t) (userId : N) (st : MemStorage) :
  (∀ m, m ∈ l → is_Some (js_get (Message.id m) (messages st))) →
  (messages (markAllRead l userId st)).*1 = (messages st).*1.
Proof.
  revert st. induction l as [|m l IH]; intros st Hall; [done|].
  change (markAllRead (m :: l) userId st)
    with (markAllRead l userId (markOne userId st m)).
  destruct (markOne_messages userId st m) as (Hmsgs & _).
  assert ((messages (markOne userId st m)).*1 = (messages st).*1) as Hk.
  { rewrite Hmsgs. destruct (negb _ && _); [|done].
    apply js_set_keys, Hall, elem_of_cons. by left. }
  rewrite IH, Hk; [done|]. intros m' Hm'.
  assert (is_Some (js_get (Message.id m') (messages st))) as Hs
    by (apply Hall, elem_of_cons; by right).
  apply not_eq_None_Some. intros Hn. apply js_get_None in Hn.
  rewrite Hk in Hn. apply js_get_None in Hn. rewrite Hn in Hs.
  by destruct Hs.
Qed.

Lemma markAllRead_rest (l : list Message.t) (userId : N) (st : MemStorage) :
  currentMessageId (markAllRead l userId st) = currentMessageId st
  ∧ users (markAllRead l userId st) = users st
  ∧ experts (markAllRead l userId st) = experts st
  ∧ categories (markAllRead l userId st) = categories st
  ∧ advices (markAllRead l userId st) = advices st
  ∧ chats (markAllRead l userId st) = chats st
  ∧ payments (markAllRead l userId st) = payments st
  ∧ currentUserId (markAllRead l userId st) = currentUserId st
  ∧ currentExpertId (markAllRead l userId st) = currentExpertId st
  ∧ currentCategoryId (markAllRead l userId st) = currentCategoryId st
  ∧ currentAdviceId (markAllRead l userId st) = currentAdviceId st
  ∧ currentChatId (markAllRead l userId st) = currentChatId st
  ∧ currentPaymentId (markAllRead l userId st) = currentPaymentId st.
Proof.
  revert st. induction l as [|m l IH]; intros st; [done|].
  change (markAllRead (m :: l) userId st)
    with (markAllRead l userId (markOne userId st m)).
  destruct (IH (markOne userId st m))
    as (-> & -> & -> & -> & -> & -> & -> & -> & -> & -> & -> & -> & ->).
  destruct (markOne_messages userId st m)
    as (_ & -> & -> & -> & -> & -> & -> & -> & -> & -> & -> & -> & -> & ->).
  done.
Qed.

(** The messages of a chat, as read by [getMessagesByChat], are stored
    under their ids, each id once. *)
Lemma getMessagesByChat_stored (chatId : N) (st : MemStorage) :
  table_ok Message.id (messages st) (currentMessageId st) →
  NoDup (Message.id <$> getMessagesByChat chatId st)
  ∧ ∀ m, m ∈ getMessagesByChat chatId st →
      js_get (Message.id m) (messages st) = Some m.
Proof.
  intros (Hnd & Hid & _).
  assert (∀ k m, (k, m) ∈ messages st → Message.id m = k) as Hkey
    by (intros k m Hin; by apply Hid).
  split.
  - unfold getMessagesByChat. rewrite sort_by_time_perm.
    unfold js_values. clear Hid.
    induction (messages st) as [|[k m] ms IH]; [constructor|].
    simpl in Hnd. apply NoDup_cons in Hnd as [Hk Hnd]. simpl.
    assert (NoDup (Message.id <$>
              filter (λ message, Message.chatId message = chatId) ms.*2))
      as IH'.
    { apply IH; [done|]. intros k' m' Hin. apply Hkey, elem_of_cons. by right. }
    rewrite filter_cons. case_decide; [|done].
    rewrite fmap_cons. apply NoDup_cons. split; [|done].
    intros Hin. apply list_elem_of_fmap in Hin as (m' & Hidm & Hin).
    apply list_elem_of_filter in Hin as [_ Hin].
    apply list_elem_of_fmap in Hin as ([k' m''] & -> & Hin). simpl in *.
    apply Hk. apply list_elem_of_fmap. exists (k', m''). split; [|done].
    simpl. rewrite <- (Hkey k m) by (apply elem_of_cons; by left).
    rewrite Hidm. apply Hkey, elem_of_cons. by right.
  - intros m Hm. apply elem_of_getMessagesByChat in Hm as [_ [k Hin]].
    rewrite (Hkey k m Hin). by apply js_elem_get.
Qed.

(** X9.  After [markMessagesAsRead(chatId, userId)] every stored message
    is what it was, but that the unread messages of the chat from other
    senders are now read; the order of the messages and all else in the
    storage are as before.  So the chat then has no unread message from
    anyone but [userId]. *)
Theorem markMessagesAsRead_marks (chatId userId : N) (st : MemStorage) :
  table_ok Message.id (messages st) (currentMessageId st) →
  (∀ k, getMessage k (markMessagesAsRead chatId userId st)
        = (λ m, if decide (Message.chatId m = chatId)
                then marked userId m else m) <$> getMessage k st)
  ∧ (messages (markMessagesAsRead chatId userId st)).*1 = (messages st).*1
  ∧ chats (markMessagesAsRead chatId userId st) = chats st
  ∧ currentMessageId (markMessagesAsRead chatId userId st)
    = currentMessageId st
  ∧ (∀ m, m ∈ getMessagesByChat chatId (markMessagesAsRead chatId userId st) →
       Message.senderId m ≠ userId → Message.isRead m = Some true).
Proof.
  intros Hok. pose proof Hok as (Hnd & Hid & _).
  destruct (getMessagesByChat_stored chatId st Hok) as [Hnd' Hst].
  assert (∀ k, getMessage k (markMessagesAsRead chatId userId st)
               = (λ m, if decide (Message.chatId m = chatId)
                       then marked userId m else m) <$> getMessage k st)
    as Hget.
  { intros k. unfold getMessage, markMessagesAsRead.
    rewrite (markAllRead_get _ userId st k Hnd' Hst).
    destruct (js_get k (messages st)) as [m|] eqn:Hg; [|done]. simpl.
    f_equal. apply js_get_elem in Hg as Hin.
    destruct (Hid _ _ Hin) as [Hk _].
    destruct (decide (Message.chatId m = chatId)) as [Hc|Hc].
    - rewrite decide_True; [done|]. apply list_elem_of_fmap. exists m.
      split; [done|]. apply elem_of_getMessagesByChat. by eauto.
    - rewrite decide_False; [done|]. intros Hin'.
      apply list_elem_of_fmap in Hin' as (m' & Hk' & Hm').
      pose proof (Hst m' Hm') as Hg'. rewrite <- Hk', Hg in Hg'.
      apply elem_of_getMessagesByChat in Hm' as [? _]. congruence. }
  assert ((messages (markMessagesAsRead chatId userId st)).*1
          = (messages st).*1) as Hkeys.
  { apply markAllRead_keys. intros m Hm. rewrite (Hst m Hm). by eauto. }
  destruct (markAllRead_rest (getMessagesByChat chatId st) userId st)
    as (Hcur & _ & _ & _ & _ & Hchats & _).
  split_and!; [done..|].
  intros m Hm Hsender.
  apply elem_of_getMessagesByChat in Hm as [Hc [k Hin]].
  apply js_elem_get in Hin; [|by rewrite Hkeys].
  fold (getMessage k (markMessagesAsRead chatId userId st)) in Hin.
  rewrite Hget in Hin.
  destruct (getMessage k st) as [m0|]; [|done]. simpl in Hin.
  injection Hin as <-.
  destruct (decide (Message.chatId m0 = chatId)) as [Hc0|Hc0]; [|done].
  unfold marked in *.
  destruct (Message.senderId m0 =? userId)%N eqn:Hs0; simpl in *.
  { by apply N.eqb_eq in Hs0. }
  unfold unread in *.
  by destruct (Message.isRead m0) as [[]|] eqn:Hr.
Qed.

(** ** The order the storage keeps *)

Lemma markAllRead_table_ok (l : list Message.t) (userId : N) (st : MemStorage) :
  (∀ m, m ∈ l → (Message.id m < currentMessageId st)%N) →
  table_ok Message.id (messages st) (currentMessageId st) →
  table_ok Message.id (messages (markAllRead l userId st))
           (currentMessageId (markAllRead l userId st)).
Proof.
  revert st. induction l as [|m l IH]; intros st Hall Hok; [done|].
  change (markAllRead (m :: l) userId st)
    with (markAllRead l userId (markOne userId st m)).
  destruct (markOne_messages userId st m) as (Hmsgs & Hcur & _).
  apply IH.
  - intros m' Hm'. rewrite Hcur. apply Hall, elem_of_cons. by right.
  - rewrite Hmsgs, Hcur. destruct (negb _ && _); [|done].
    apply table_ok_update; [done..|]. apply Hall, elem_of_cons. by left.
Qed.

(** X10.  Every writing operation keeps the storage in order, as long as
    the counter it takes an id from has not reached 2^53: each [Map]
    holds every record under the record's own id, the ids are below the
    counter, and so the next id is always new. *)
Theorem store_ok_preserved (op : mutation) (st : MemStorage) :
  store_ok st → has_room op st → store_ok (perform op st).
Proof.
  intros (Hu & He & Hc & Ha & Hch & Hm & Hp) Hroom.
  destruct op as [i|i|id a|i|i|i|i|chatId userId|i]; simpl in *.
  - split_and!; try done. by apply table_ok_create.
  - split_and!; try done. by apply table_ok_create.
  - unfold updateExpertAvailability.
    destruct (js_get id (experts st)) as [e|] eqn:Hg; [|by split_and!].
    simpl. split_and!; try done.
    apply js_get_elem in Hg. destruct He as (? & Hid & ?).
    destruct (Hid _ _ Hg) as [Hk Hlt].
    by apply table_ok_update.
  - split_and!; try done. by apply table_ok_create.
  - split_and!; try done. by apply table_ok_create.
  - split_and!; try done. by apply table_ok_create.
  - unfold createMessage. simpl.
    destruct (js_get (InsertMessage.chatId i) (chats st)) as [chat|] eqn:Hg;
      simpl; (split_and!; try done); try by apply table_ok_create.
    apply js_get_elem in Hg. destruct Hch as (? & Hid & ?).
    destruct (Hid _ _ Hg) as [Hk Hlt].
    apply table_ok_update; [done|done|]. by rewrite Hk.
  - destruct (markAllRead_rest (getMessagesByChat chatId st) userId st)
      as (_ & Hu' & He' & Hc' & Ha' & Hch' & Hp' & cu & ce & cc & ca & cch & cp).
    unfold markMessagesAsRead, store_ok.
    rewrite Hu', He', Hc', Ha', Hch', Hp', cu, ce, cc, ca, cch, cp.
    split_and!; try done.
    apply markAllRead_table_ok; [|done].
    intros m Hin. apply elem_of_getMessagesByChat in Hin as [_ [k Hin]].
    destruct Hm as (_ & Hid & _). destruct (Hid _ _ Hin) as [-> ?]. done.
  - split_and!; try done. by apply table_ok_create.
Qed.

(** ** Experts *)

(** X11.  [createExpert] gives the new expert the counter as its id, an
    id no expert had; afterwards [getExpert] finds it under that id and
    every other id as before, and [getAllExperts] lists it last. *)
Theorem createExpert_round_trip (insertExpert : InsertExpert.t)
    (st : MemStorage) :
  table_ok Expert.id (experts st) (currentExpertId st) →
  (currentExpertId st < max_safe)%N →
  Expert.id (createExpert insertExpert st).1 = currentExpertId st
  ∧ getExpert (currentExpertId st) st = None
  ∧ getExpert (currentExpertId st) (createExpert insertExpert st).2
    = Some (createExpert insertExpert st).1
  ∧ (∀ id, id ≠ currentExpertId st →
       getExpert id (createExpert insertExpert st).2 = getExpert id st)
  ∧ getAllExperts (createExpert insertExpert st).2
    = getAllExperts st ++ [(createExpert insertExpert st).1]
  ∧ currentExpertId (createExpert insertExpert st).2
    = (currentExpertId st + 1)%N.
Proof.
  intros Hok Hroom.
  destruct (table_ok_create Expert.id (experts st) (currentExpertId st)
              (createExpert insertExpert st).1 Hok Hroom eq_refl)
    as [Hfresh _].
  unfold getExpert, getAllExperts, js_values. simpl. split_and!; [done..| | | |].
  - apply js_get_set_eq.
  - intros id Hne. by apply js_get_set_ne.
  - by rewrite js_set_fresh, fmap_app.
  - unfold next_id. by rewrite (proj2 (N.ltb_lt _ _) Hroom).
Qed.

(** X12.  [updateExpertAvailability] on an id no expert has resolves to
    [undefined] and changes nothing.  On the id of an expert it
    resolves to that expert with the new availability and no other
    change, stores it under the id, and leaves the other experts, the
    order of [getAllExperts] and the counter as they were. *)
Theorem updateExpertAvailability_spec (id : N) (availability : bool)
    (st : MemStorage) :
  (getExpert id st = None →
   updateExpertAvailability id availability st = (None, st))
  ∧ (∀ expert, getExpert id st = Some expert →
       (updateExpertAvailability id availability st).1
       = Some (Expert.mk (Expert.id expert) (Expert.userId expert)
                         (Some availability) (Expert.rest expert))
       ∧ getExpert id (updateExpertAvailability id availability st).2
         = (updateExpertAvailability id availability st).1
       ∧ (∀ id', id' ≠ id →
            getExpert id' (updateExpertAvailability id availability st).2
            = getExpert id' st)
       ∧ (experts (updateExpertAvailability id availability st).2).*1
         = (experts st).*1
       ∧ length (getAllExperts (updateExpertAvailability id availability st).2)
         = length (getAllExperts st)
       ∧ currentExpertId (updateExpertAvailability id availability st).2
         = currentExpertId st).
Proof.
  unfold getExpert, updateExpertAvailability. split.
  - by intros ->.
  - intros expert Hg. rewrite Hg. simpl.
    assert ((js_set id
               (Expert.mk (Expert.id expert) (Expert.userId expert)
                          (Some availability) (Expert.rest expert))
               (experts st)).*1 = (experts st).*1) as Hkeys
      by (apply js_set_keys; by eauto).
    split_and!; [done| | |done| |done].
    + apply js_get_set_eq.
    + intros id' Hne. by apply js_get_set_ne.
    + unfold getAllExperts, js_values. simpl.
      rewrite !length_fmap.
      by rewrite <- (length_fmap fst), Hkeys, length_fmap.
Qed.

Lemma elem_of_uniq (seen l : list N) (x : N) :
  x ∈ uniq seen l ↔ x ∈ l ∧ x ∉ seen.
Proof.
  revert seen. induction l as [|y l IH]; intros seen; simpl.
  - split; [intros Hin; by apply not_elem_of_nil in Hin|].
    intros [Hin _]. by apply not_elem_of_nil in Hin.
  - destruct (decide (y ∈ seen)) as [Hy|Hy].
    + rewrite IH, elem_of_cons. split; [intros [? ?]; by auto|].
      intros [[->|?] ?]; by auto.
    + rewrite !elem_of_cons, IH, not_elem_of_cons. split.
      * intros [->|[? [? ?]]]; by auto.
      * intros [[->|?] ?]; [by left|].
        destruct (decide (x = y)) as [->|?]; [by left|by right].
Qed.

Lemma NoDup_uniq (seen l : list N) : NoDup (uniq seen l).
Proof.
  revert seen. induction l as [|y l IH]; intros seen; simpl; [constructor|].
  destruct (decide (y ∈ seen)); [done|].
  apply NoDup_cons. split; [|done].
  rewrite elem_of_uniq, not_elem_of_cons. by intros [_ [? _]].
Qed.

Lemma NoDup_omap {A B} (f : A → option B) (l : list A) :
  (∀ x y z, f x = Some z → f y = Some z → x = y) →
  NoDup l → NoDup (omap f l).
Proof.
  intros Hinj. induction l as [|x l IH]; intros Hnd; [constructor|].
  apply NoDup_cons in Hnd as [Hx Hnd]. simpl.
  destruct (f x) as [z|] eqn:Hfx; [|by apply IH].
  apply NoDup_cons. split; [|by apply IH].
  rewrite list_elem_of_omap. intros (y & Hy & Hfy).
  by rewrite (Hinj x y z Hfx Hfy) in Hx.
Qed.

(** X13.  [getExpertsByCategory] returns each stored expert who has an
    advice in the category, once; an advice whose expert is not stored
    contributes nothing. *)
Theorem getExpertsByCategory_spec (categoryId : N) (st : MemStorage) :
  table_ok Expert.id (experts st) (currentExpertId st) →
  NoDup (getExpertsByCategory categoryId st)
  ∧ ∀ expert,
      expert ∈ getExpertsByCategory categoryId st
      ↔ getExpert (Expert.id expert) st = Some expert
        ∧ ∃ advice, advice ∈ getAllAdvices st
            ∧ Advice.categoryId advice = categoryId
            ∧ Advice.expertId advice = Expert.id expert.
Proof.
  intros (Hnd & Hid & _).
  assert (∀ k e, js_get k (experts st) = Some e → Expert.id e = k) as Hkey.
  { intros k e Hg. apply js_get_elem in Hg. by apply Hid. }
  unfold getExpertsByCategory, expertsOfAdvices, getExpert. split.
  - apply NoDup_omap; [|apply NoDup_uniq].
    intros x y e Hx Hy. by rewrite <- (Hkey x e Hx), <- (Hkey y e Hy).
  - intros expert. rewrite list_elem_of_omap. split.
    + intros (k & Hk & Hg). rewrite (Hkey k expert Hg). split; [done|].
      apply elem_of_uniq in Hk as [Hk _].
      apply list_elem_of_fmap in Hk as (advice & -> & Hin).
      apply list_elem_of_filter in Hin as [Hc Hin].
      exists advice. by split_and!.
    + intros [Hg (advice & Hin & Hc & He)].
      exists (Expert.id expert). split; [|done].
      apply elem_of_uniq. split; [|apply not_elem_of_nil].
      apply list_elem_of_fmap. exists advice. split; [done|].
      apply list_elem_of_filter. done.
Qed.

(** ** Users *)

Lemma find_snoc {A} (f : A → bool) (l : list A) (x : A) :
  find f (l ++ [x])
  = match find f l with
    | Some y => Some y
    | None => if f x then Some x else None
    end.
Proof.
  induction l as [|y l IH]; simpl; [done|]. by destruct (f y).
Qed.

(** X14.  [createUser] takes any username, also one in use.  Afterwards
    [getUser] finds the new user under its id, and
    [getUserByUsername] still resolves to the user it resolved to
    before, if any: of two users with one username the older is
    found. *)
Theorem createUser_keeps_older_user (insertUser : InsertUser.t)
    (username : string) (st : MemStorage) :
  table_ok User.id (users st) (currentUserId st) →
  (currentUserId st < max_safe)%N →
  getUser (User.id (createUser insertUser st).1) (createUser insertUser st).2
  = Some (createUser insertUser st).1
  ∧ getUserByUsername username (createUser insertUser st).2
    = match getUserByUsername username st with
      | Some user => Some user
      | None =>
          if String.eqb (InsertUser.username insertUser) username
          then Some (createUser insertUser st).1
          else None
      end.
Proof.
  intros Hok Hroom.
  destruct (table_ok_create User.id (users st) (currentUserId st)
              (createUser insertUser st).1 Hok Hroom eq_refl)
    as [Hfresh _].
  unfold getUser, getUserByUsername, js_values. simpl. split.
  - apply js_get_set_eq.
  - rewrite js_set_fresh, fmap_app by done.
    etrans; [apply find_snoc|done].
Qed.

(** ** Creating a message *)

(** X15.  [createMessage] stores the message under a new id whether or
    not its chat exists.  If the chat exists, its [lastMessage] and
    [lastMessageTime] become the content and the timestamp of the new
    message, whatever the timestamps of the messages already there;
    no other chat changes and the chats keep their order. *)
Theorem createMessage_touches_chat (insertMessage : InsertMessage.t)
    (st : MemStorage) :
  table_ok Message.id (messages st) (currentMessageId st) →
  table_ok Chat.id (chats st) (currentChatId st) →
  (currentMessageId st < max_safe)%N →
  Message.id (createMessage insertMessage st).1 = currentMessageId st
  ∧ getMessage (currentMessageId st) st = None
  ∧ getMessage (currentMessageId st) (createMessage insertMessage st).2
    = Some (createMessage insertMessage st).1
  ∧ (∀ id, id ≠ currentMessageId st →
       getMessage id (createMessage insertMessage st).2 = getMessage id st)
  ∧ (∀ id, getChat id (createMessage insertMessage st).2
           = (if decide (id = InsertMessage.chatId insertMessage)
              then touched (createMessage insertMessage st).1
              else (λ chat, chat)) <$> getChat id st)
  ∧ (chats (createMessage insertMessage st).2).*1 = (chats st).*1.
Proof.
  intros Hm (Hnd & Hid & _) Hroom.
  set (message := Message.mk (currentMessageId st)
         (InsertMessage.chatId insertMessage)
         (InsertMessage.senderId insertMessage)
         (InsertMessage.content insertMessage)
         (InsertMessage.timestamp insertMessage)
         (InsertMessage.isRead insertMessage)
         (InsertMessage.rest insertMessage)).
  destruct (table_ok_create Message.id (messages st) (currentMessageId st)
              message Hm Hroom eq_refl) as [Hfresh _].
  unfold getMessage, getChat, createMessage. fold message. simpl.
  destruct (js_get (InsertMessage.chatId insertMessage) (chats st))
    as [chat|] eqn:Hg; simpl.
  - apply js_get_elem in Hg as Hin. destruct (Hid _ _ Hin) as [Hk _].
    rewrite Hk. split_and!; [done|done|apply js_get_set_eq| | |].
    + intros id Hne. by apply js_get_set_ne.
    + intros id. case_decide as Hc; [subst id|].
      * rewrite js_get_set_eq, Hg. simpl. unfold touched. by rewrite Hk.
      * rewrite js_get_set_ne by done. by destruct (js_get id (chats st)).
    + apply js_set_keys. by eauto.
  - split_and!; [done|done|apply js_get_set_eq| | |done].
    + intros id Hne. by apply js_get_set_ne.
    + intros id. case_decide as Hc; [subst id; by rewrite Hg|].
      by destruct (js_get id (chats st)).
Qed.

Lemma table_okb_ok {V} (id : V → N) (m : list (N * V)) (current : N) :
  table_okb id m current = true → table_ok id m current.
Proof.
  unfold table_okb. intros Hb.
  apply andb_true_iff in Hb as [Hb Hmax].
  apply andb_true_iff in Hb as [Hnd Hall].
  apply bool_decide_eq_true_1 in Hnd. apply N.leb_le in Hmax.
  split_and!; [done| |done]. intros k v Hin.
  rewrite forallb_forall in Hall. apply list_elem_of_In in Hin.
  specialize (Hall _ Hin). simpl in Hall.
  apply andb_true_iff in Hall as [Hid Hlt].
  apply N.eqb_eq in Hid. apply N.ltb_lt in Hlt. done.
Qed.

Lemma store_okb_ok (st : MemStorage) : store_okb st = true → store_ok st.
Proof.
  unfold store_okb. intros Hb.
  do 6 (apply andb_true_iff in Hb as [Hb ?]).
  unfold store_ok. split_and!; by apply table_okb_ok.
Qed.

(** * The properties on concrete frames *)

Module Examples.
Import Frames.

(** The scenario of the specification: [u1] and [u2] register, [u2]
    sends an offer that [u1] receives as sent; [u1] disconnects; the
    same offer now comes back to [u2] as an error. *)
Example offer_then_disconnect :
  (run JSON_parse
     [Connection; Connection;
      Message 0 (register_text "u1"); Message 1 (register_text "u2");
      Message 1 (offer_text "u2" "u1");
      Close 0;
      Message 1 (offer_text "u2" "u1")] initial).2
  = [(0, Send (offer_text "u2" "u1"));
     (1, SendJSON (JObj [("type", JStr "error");
                         ("message", JStr "Recipient not available");
                         ("from", JStr "server");
                         ("to", JStr "u2")]))].
Proof. vm_compute. reflexivity. Qed.

(** A socket that never answers is probed at one tick and terminated
    at the next; a signal to its identity then fails. *)
Example silent_peer_reaped :
  (run JSON_parse
     [Connection; Connection;
      Message 0 (register_text "u1"); Message 1 (register_text "u2");
      Tick; Pong 1; Tick;
      Message 1 (offer_text "u2" "u1")] initial).2
  = [(0, Ping); (1, Ping); (0, Terminate); (1, Ping);
     (1, SendJSON (error_envelope (Some (JStr "u2"))))].
Proof. vm_compute. reflexivity. Qed.

(** C1 fails as stated.  The frame
    [{"type":"register","userId":"u3","from":"u2","to":"u1"}] has
    non-empty [type], [from] and [to], and [u1] is registered on the
    open socket 0; sent by socket 1 it is not forwarded.  The offer
    that socket 0, registered as [u1], addresses to [u1] is sent to its
    sender.  And the binary frame [Wire.offer_ff], an offer to [u1]
    with the byte [FF] in its [sdp], is forwarded to socket 0 as a text
    frame with another payload, two bytes longer. *)
Lemma signal_forwarded_verbatim_fails :
  (JSON_parse register_routed_text = Some register_routed_data
   ∧ is_signal register_routed_data = true
   ∧ recipient st_u1 register_routed_data = Some 0
   ∧ is_open st_u1 0 = true
   ∧ (on_message JSON_parse 1 register_routed_text st_u1).2 = [])
  ∧ (JSON_parse (offer_text "u1" "u1") = Some (offer_data "u1" "u1")
     ∧ is_signal (offer_data "u1" "u1") = true
     ∧ recipient st_u1 (offer_data "u1" "u1") = Some 0
     ∧ is_open st_u1 0 = true
     ∧ sent_to 0 (on_message JSON_parse 0 (offer_text "u1" "u1") st_u1).2
       = true)
  ∧ (deliver 1 Wire.offer_ff = Message 1 Wire.offer_ff_text
     ∧ Wire.JSON_parse Wire.offer_ff_text = Some Wire.offer_ff_data
     ∧ is_signal Wire.offer_ff_data = true
     ∧ is_register Wire.offer_ff_data = false
     ∧ recipient st_u1 Wire.offer_ff_data = Some 0
     ∧ is_open st_u1 0 = true
     ∧ (∃ f, transmitted
               (step Wire.JSON_parse st_u1 (deliver 1 Wire.offer_ff)).2
             = [(0, Data f)]
             ∧ isBinary f = false
             ∧ payload f ≠ payload Wire.offer_ff
             ∧ length (payload f) = length (payload Wire.offer_ff) + 2)).
Proof.
  split_and!; try (vm_compute; reflexivity).
  eexists. split_and!; [vm_compute; reflexivity|reflexivity| |reflexivity].
  vm_compute. discriminate.
Qed.

Lemma signal_forwarded_verbatim_witness :
  on_message JSON_parse 1 (offer_text "u2" "u1") st_u1_u2
  = (alloc st_u1_u2, [(0, Send (offer_text "u2" "u1"))])
  ∧ (attached st_u1_u2 1 = true →
     step JSON_parse st_u1_u2
       (deliver 1 (Wire.text_frame (offer_text "u2" "u1")))
     = (alloc st_u1_u2, [(0, Send (offer_text "u2" "u1"))]))
  ∧ (0 ≠ 1 →
     sent_to 1 (on_message JSON_parse 1 (offer_text "u2" "u1") st_u1_u2).2
     = false)
  ∧ transmitted (on_message JSON_parse 1 (offer_text "u2" "u1") st_u1_u2).2
    = [(0, Data {| isBinary := false;
                   payload :=
                     utf8_decode
                       (payload (Wire.text_frame (offer_text "u2" "u1"))) |})]
  ∧ (isValidUTF8 (payload (Wire.text_frame (offer_text "u2" "u1"))) = true →
     transmitted (on_message JSON_parse 1 (offer_text "u2" "u1") st_u1_u2).2
     = [(0, Data {| isBinary := false;
                    payload :=
                      payload (Wire.text_frame (offer_text "u2" "u1")) |})])
  ∧ (isBinary (Wire.text_frame (offer_text "u2" "u1")) = false →
     transmitted (on_message JSON_parse 1 (offer_text "u2" "u1") st_u1_u2).2
     = [(0, Data (Wire.text_frame (offer_text "u2" "u1")))]).
Proof.
  apply (signal_forwarded_verbatim JSON_parse st_u1_u2 1 0
           (Wire.text_frame (offer_text "u2" "u1"))
           (offer_text "u2" "u1") (offer_data "u2" "u1"));
    vm_compute; reflexivity.
Defined.

(** C2 fails as stated.  After two sockets have registered as [bob],
    socket 0 has registered and is connected but the Registry holds
    socket 1 under [bob]; and once socket 0 has disconnected, socket 1,
    registered and connected, is not in the Registry, which is empty.
    A socket that registered as [u1] and then as [u2] is still in the
    Registry, under [u1], after its ['close'] event.  And of two
    registered sockets that are closing, their ['close'] event to come,
    the one that began to close is in the Registry and the one that was
    terminated is not. *)
Lemma registry_iff_registered_fails :
  (sockets (run JSON_parse two_bobs initial).1 !! 0
   = Some {| readyState := OPEN; userId := VStr "bob"; isAlive := Some true |}
   ∧ map_to_list (connectedClients (run JSON_parse two_bobs initial).1)
     = [(VStr "bob", 1)])
  ∧ (sockets (run JSON_parse two_bobs_first_leaves initial).1 !! 1
     = Some {| readyState := OPEN; userId := VStr "bob"; isAlive := Some true |}
     ∧ connectedClients (run JSON_parse two_bobs_first_leaves initial).1
         !! VStr "bob" = None
     ∧ map_to_list
         (connectedClients (run JSON_parse two_bobs_first_leaves initial).1)
       = [])
  ∧ (sockets (run JSON_parse Wire.renamed initial).1 !! 0
     = Some {| readyState := CLOSED; userId := VStr "u2";
               isAlive := Some true |}
     ∧ map_to_list (connectedClients (run JSON_parse Wire.renamed initial).1)
       = [(VStr "u1", 0)])
  ∧ (sockets (run JSON_parse Wire.leaving initial).1 !! 0
     = Some {| readyState := CLOSING; userId := VStr "u1";
               isAlive := Some true |}
     ∧ map_to_list (connectedClients (run JSON_parse Wire.leaving initial).1)
       = [(VStr "u1", 0)]
     ∧ sockets (run JSON_parse Wire.reaped initial).1 !! 0
       = Some {| readyState := CLOSING; userId := VStr "u1";
                 isAlive := Some false |}
     ∧ map_to_list (connectedClients (run JSON_parse Wire.reaped initial).1)
       = []).
Proof. vm_compute. by repeat split. Qed.

Lemma registry_of_registered_witness :
  (∀ k c,
     connectedClients (run JSON_parse Wire.reconnect initial).1 !! k = Some c →
     (c, k) ∈ registrations JSON_parse Wire.reconnect initial)
  ∧ (∀ k c,
       connectedClients (run JSON_parse Wire.reconnect initial).1 !! k
       = Some c →
       ∃ ws, sockets (run JSON_parse Wire.reconnect initial).1 !! c = Some ws
             ∧ map_key (userId ws) = k
             ∧ truthy (userId ws) = true
             ∧ readyState ws ≠ CLOSED)
  ∧ (∀ c ws,
       sockets (run JSON_parse Wire.reconnect initial).1 !! c = Some ws →
       truthy (userId ws) = true →
       readyState ws = OPEN →
       connectedClients (run JSON_parse Wire.reconnect initial).1
         !! map_key (userId ws) = Some c).
Proof.
  destruct (registry_of_registered JSON_parse Wire.reconnect) as [H1 H2].
  split; [exact H1|]. apply H2. vm_compute. reflexivity.
Defined.

(** The execution of the witness is one that registers an identity
    twice, on two sockets: the second registers once the first has
    left, and is then in the Registry. *)
Example reconnect_registered :
  registrations JSON_parse Wire.reconnect initial
  = [(0, VStr "bob"); (1, VStr "bob")]
  ∧ orderly JSON_parse Wire.reconnect initial = true
  ∧ orderly JSON_parse two_users initial = true
  ∧ orderly JSON_parse two_bobs initial = false
  ∧ orderly JSON_parse Wire.renamed initial = false
  ∧ map_to_list (connectedClients (run JSON_parse Wire.reconnect initial).1)
    = [(VStr "bob", 1)].
Proof. vm_compute. by repeat split. Qed.

(** C3 fails as stated.  The frame
    [{"type":"register","userId":"u3","from":"u2","to":"u1"}] has
    non-empty [type], [from] and [to], and nobody is registered as
    [u1]; sent by the open socket 0 it is answered by nothing.  An
    offer to the unregistered [ghost] that arrives on a socket the sweep
    has terminated, before its ['close'] event, is answered by
    nothing.  And the offer [{"type":"offer","from":1e999,"to":"ghost"}]
    is answered by an error envelope whose [to] is [null], not the
    [from] of the offer. *)
Lemma error_reply_to_sender_fails :
  (JSON_parse register_routed_text = Some register_routed_data
   ∧ is_signal register_routed_data = true
   ∧ available st_one register_routed_data = false
   ∧ is_open st_one 0 = true
   ∧ (on_message JSON_parse 0 register_routed_text st_one).2 = [])
  ∧ (JSON_parse (offer_text "u2" "ghost") = Some (offer_data "u2" "ghost")
     ∧ is_signal (offer_data "u2" "ghost") = true
     ∧ is_register (offer_data "u2" "ghost") = false
     ∧ available st_one_reaped (offer_data "u2" "ghost") = false
     ∧ sockets st_one_reaped !! 0
       = Some {| readyState := CLOSING; userId := VUndefined;
                 isAlive := Some false |}
     ∧ (step JSON_parse st_one_reaped
          (Message 0 (offer_text "u2" "ghost"))).2 = [])
  ∧ (Wire.JSON_parse Wire.offer_huge_text = Some Wire.offer_huge_data
     ∧ is_signal Wire.offer_huge_data = true
     ∧ is_register Wire.offer_huge_data = false
     ∧ available st_one Wire.offer_huge_data = false
     ∧ is_open st_one 0 = true
     ∧ field Wire.offer_huge_data "from" = Some (JNum Wire.infinity)
     ∧ transmitted
         (step Wire.JSON_parse st_one (Message 0 Wire.offer_huge_text)).2
       = [(0, JSONText (JObj [("type", JStr "error");
                              ("message", JStr "Recipient not available");
                              ("from", JStr "server");
                              ("to", JNull)]))]).
Proof. vm_compute. by repeat split. Qed.

Lemma error_reply_to_sender_witness :
  ∃ from, field (offer_data "u2" "ghost") "from" = Some from
    ∧ on_message JSON_parse 1 (offer_text "u2" "ghost") st_u1_u2 =
        (alloc st_u1_u2,
         [(1, SendJSON (JObj [("type", JStr "error");
                              ("message", JStr "Recipient not available");
                              ("from", JStr "server");
                              ("to", from)]))])
    ∧ transmitted (on_message JSON_parse 1 (offer_text "u2" "ghost") st_u1_u2).2
      = [(1, JSONText (JObj [("type", JStr "error");
                             ("message", JStr "Recipient not available");
                             ("from", JStr "server");
                             ("to", written from)]))]
    ∧ (plain from = true → written from = from).
Proof.
  apply (error_reply_to_sender JSON_parse st_u1_u2 1
           (offer_text "u2" "ghost") (offer_data "u2" "ghost"));
    vm_compute; reflexivity.
Defined.

(** In the witness the [from] is the string [u2], which is written as
    it is. *)
Example error_reply_to_u2 :
  transmitted (on_message JSON_parse 1 (offer_text "u2" "ghost") st_u1_u2).2
  = [(1, JSONText (JObj [("type", JStr "error");
                         ("message", JStr "Recipient not available");
                         ("from", JStr "server");
                         ("to", JStr "u2")]))].
Proof. vm_compute. reflexivity. Qed.

Lemma register_replaces_entry_witness :
  (bob_first.2 = [] ∧ bob_second.2 = [])
  ∧ connectedClients bob_first.1 !! VStr "bob" = Some 0
  ∧ (∀ k, k ≠ VStr "bob" →
       connectedClients bob_first.1 !! k = connectedClients st_three !! k)
  ∧ (∀ c', readyState <$> sockets bob_first.1 !! c'
           = readyState <$> sockets st_three !! c')
  ∧ connectedClients bob_second.1 !! VStr "bob" = Some 1
  ∧ (∀ k, k ≠ VStr "bob" →
       connectedClients bob_second.1 !! k = connectedClients st_three !! k)
  ∧ (∀ c', readyState <$> sockets bob_second.1 !! c'
           = readyState <$> sockets st_three !! c')
  ∧ (is_open bob_second.1 1 = true →
     bob_offered.2 = [(1, Send (offer_text "carol" "bob"))])
  ∧ (∀ c' text, (c', Send text) ∈ bob_offered.2 → c' = 1).
Proof.
  apply (register_replaces_entry JSON_parse st_three 0 1 2 "bob"
           (register_text "bob") (register_text "bob")
           (offer_text "carol" "bob")
           (register_data "bob") (register_data "bob")
           (offer_data "carol" "bob"));
    first [discriminate | vm_compute; reflexivity].
Defined.

Lemma liveness_tick_witness :
  (isAlive ws_u1_probed = Some false →
     terminated 0 (pingInterval st_u1_probed).2 = true
     ∧ pinged 0 (pingInterval st_u1_probed).2 = false
     ∧ sockets (pingInterval st_u1_probed).1 !! 0
       = Some (set_readyState CLOSING ws_u1_probed)
     ∧ (truthy (userId ws_u1_probed) = true →
        clients_get (userId ws_u1_probed) (pingInterval st_u1_probed).1
        = None))
  ∧ (isAlive ws_u1_probed ≠ Some false →
     pinged 0 (pingInterval st_u1_probed).2 = true
     ∧ terminated 0 (pingInterval st_u1_probed).2 = false
     ∧ sockets (pingInterval st_u1_probed).1 !! 0
       = Some (set_isAlive (Some false) ws_u1_probed))
  ∧ sockets (on_pong 0 st_u1_probed) !! 0
    = Some (set_isAlive (Some true) ws_u1_probed)
  ∧ sockets (on_connection st_u1_probed) !! length (sockets st_u1_probed)
    = Some {| readyState := OPEN; userId := VUndefined; isAlive := Some true |}.
Proof.
  apply (liveness_tick st_u1_probed 0 ws_u1_probed); vm_compute; reflexivity.
Defined.

Lemma responsive_never_terminated_witness :
  terminated 0 (run JSON_parse punctual initial).2 = false.
Proof.
  apply (responsive_never_terminated JSON_parse 0 punctual).
  vm_compute. reflexivity.
Defined.

Lemma disconnect_frame_witness :
  (sockets (on_close 0 st_u1_probed) = sockets st_u1_probed
   ∧ (truthy (userId ws_u1_probed) = true →
      connectedClients (on_close 0 st_u1_probed)
      = delete (map_key (userId ws_u1_probed)) (connectedClients st_u1_probed)
      ∧ clients_get (userId ws_u1_probed) (on_close 0 st_u1_probed) = None)
   ∧ (truthy (userId ws_u1_probed) = false →
      connectedClients (on_close 0 st_u1_probed)
      = connectedClients st_u1_probed)
   ∧ (∀ k, k ≠ map_key (userId ws_u1_probed) →
      connectedClients (on_close 0 st_u1_probed) !! k
      = connectedClients st_u1_probed !! k))
  ∧ (isAlive ws_u1_probed = Some false →
     (sweep_client 0 st_u1_probed).2 = [(0, Terminate)]
     ∧ (∀ c', c' ≠ 0 →
        sockets (sweep_client 0 st_u1_probed).1 !! c'
        = sockets st_u1_probed !! c')
     ∧ isAlive <$> sockets (sweep_client 0 st_u1_probed).1 !! 0
       = Some (isAlive ws_u1_probed)
     ∧ (truthy (userId ws_u1_probed) = true →
        connectedClients (sweep_client 0 st_u1_probed).1
        = delete (map_key (userId ws_u1_probed))
            (connectedClients st_u1_probed))
     ∧ (truthy (userId ws_u1_probed) = false →
        connectedClients (sweep_client 0 st_u1_probed).1
        = connectedClients st_u1_probed)
     ∧ (∀ k, k ≠ map_key (userId ws_u1_probed) →
        connectedClients (sweep_client 0 st_u1_probed).1 !! k
        = connectedClients st_u1_probed !! k)).
Proof.
  apply (disconnect_frame st_u1_probed 0 ws_u1_probed).
  vm_compute. reflexivity.
Defined.



(** The two other kinds of malformed frame: [null], on which the first
    property read throws, and an offer without [from]. *)
Example malformed_null_and_partial :
  malformed JSON_parse "null" = true
  ∧ message_body JSON_parse 1 (heap_next st_u1) "null" (alloc st_u1)
    = Throw TypeError
  ∧ malformed JSON_parse partial_text = true.
Proof. vm_compute. by repeat split. Qed.

Lemma register_takes_precedence_witness :
  let uid := to_value (heap_next st_u1) (field register_routed_data "userId") in
  let r := on_message JSON_parse 1 register_routed_text st_u1 in
  r.2 = []
  ∧ (attached st_u1 1 = true →
     step JSON_parse st_u1 (Message 1 register_routed_text) = r)
  ∧ truthy uid = true
  ∧ connectedClients r.1 !! map_key uid = Some 1
  ∧ (∀ k, k ≠ map_key uid →
       connectedClients r.1 !! k = connectedClients st_u1 !! k)
  ∧ sockets r.1 !! 1 = set_userId uid <$> sockets st_u1 !! 1
  ∧ (∀ c', c' ≠ 1 → sockets r.1 !! c' = sockets st_u1 !! c').
Proof.
  apply (register_takes_precedence JSON_parse st_u1 1
           register_routed_text register_routed_data);
    vm_compute; reflexivity.
Defined.

(** The frame of the witness has non-empty [from] and [to], and its
    [to], [u1], is registered on the open socket 0: were it taken for a
    signal it would be forwarded.  It makes socket 1 the holder of
    [u3]. *)
Example register_routed_registers :
  is_signal register_routed_data = true
  ∧ available st_u1 register_routed_data = true
  ∧ (step JSON_parse st_u1 (Message 1 register_routed_text)).2 = []
  ∧ connectedClients
      (step JSON_parse st_u1 (Message 1 register_routed_text)).1
      !! VStr "u3" = Some 1
  ∧ connectedClients
      (step JSON_parse st_u1 (Message 1 register_routed_text)).1
      !! VStr "u1" = Some 0
  ∧ userId <$>
      sockets (step JSON_parse st_u1 (Message 1 register_routed_text)).1 !! 1
    = Some (VStr "u3").
Proof. vm_compute. by repeat split. Qed.

(** C10 fails as stated.  The same offer to [ghost], whom nobody is
    registered as, arrives on socket 0 in two states with the same
    Registry, the empty one, in which the socket has no identity: when
    its channel is open the error envelope is returned to it, and when
    the sweep has terminated it nothing is. *)
Lemma sender_channel_decides :
  JSON_parse (offer_text "u2" "ghost") = Some (offer_data "u2" "ghost")
  ∧ is_signal (offer_data "u2" "ghost") = true
  ∧ is_register (offer_data "u2" "ghost") = false
  ∧ connectedClients st_one = connectedClients st_one_reaped
  ∧ recipient st_one (offer_data "u2" "ghost") = None
  ∧ recipient st_one_reaped (offer_data "u2" "ghost") = None
  ∧ userId <$> sockets st_one !! 0 = Some VUndefined
  ∧ userId <$> sockets st_one_reaped !! 0 = Some VUndefined
  ∧ readyState <$> sockets st_one !! 0 = Some OPEN
  ∧ readyState <$> sockets st_one_reaped !! 0 = Some CLOSING
  ∧ (step JSON_parse st_one (Message 0 (offer_text "u2" "ghost"))).2
    = [(0, SendJSON (error_envelope (Some (JStr "u2"))))]
  ∧ (step JSON_parse st_one_reaped (Message 0 (offer_text "u2" "ghost"))).2
    = [].
Proof. vm_compute. by repeat split. Qed.

(** Socket 1 sends [u1] the same offer before and after it registers
    as [u2]. *)
Lemma sender_identity_not_checked_witness :
  (on_message JSON_parse 1 (offer_text "u2" "u1") st_u1).2
  = (on_message JSON_parse 1 (offer_text "u2" "u1") st_u1_u2).2.
Proof.
  apply (proj1 (sender_identity_not_checked JSON_parse st_u1 1
                  (offer_text "u2" "u1"))
           st_u1_u2 (offer_data "u2" "u1"));
    vm_compute; reflexivity.
Defined.

(** A sample execution of the storage: the third message of chat 1 is
    found between the two others, the advice of the missing expert 7
    gives no expert, and marking the chat read for user 1 reads the
    messages of user 2. *)
Example storage_sample :
  (Message.content <$> getMessagesByChat 1 Store.sample)
  = ["hi"; "hello"; "again"]
  ∧ (Expert.id <$> getExpertsByCategory 1 Store.sample) = [1%N]
  ∧ (Message.isRead <$>
       getMessagesByChat 1 (markMessagesAsRead 1 1 Store.sample))
    = [Some true; None; Some true]
  ∧ (Chat.lastMessage <$> getChat 1 Store.sample) = Some (Some "again")
  ∧ (Message.content <$> getMessage 4 Store.sample) = Some "lost".
Proof. vm_compute. by repeat split. Qed.

Lemma silent_socket_reaped_witness :
  terminated 0
    (run JSON_parse (Tick :: MoreFrames.meanwhile ++ [Tick]) st_u1).2 = true
  ∧ ∃ ws', sockets
             (run JSON_parse (Tick :: MoreFrames.meanwhile ++ [Tick]) st_u1).1
             !! 0 = Some ws'
      ∧ readyState ws' = CLOSING
      ∧ isAlive ws' = Some false
      ∧ (truthy (userId ws') = true →
         clients_get (userId ws')
           (run JSON_parse (Tick :: MoreFrames.meanwhile ++ [Tick]) st_u1).1
         = None).
Proof.
  apply (silent_socket_reaped JSON_parse 0 MoreFrames.meanwhile st_u1
           MoreFrames.ws_u1); [vm_compute; reflexivity|discriminate|
                               vm_compute; reflexivity].
Defined.

Lemma close_unregisters_identity_witness :
  clients_get (userId MoreFrames.ws_bob)
    (step JSON_parse MoreFrames.st_two_bobs (Close 0)).1 = None
  ∧ (on_message JSON_parse 1 (offer_text "carol" "bob")
       (step JSON_parse MoreFrames.st_two_bobs (Close 0)).1).2
    = [(1, SendJSON (error_envelope
                       (field (offer_data "carol" "bob") "from")))].
Proof.
  apply (close_unregisters_identity JSON_parse 0 MoreFrames.ws_bob
           MoreFrames.st_two_bobs 1 (offer_text "carol" "bob")
           (offer_data "carol" "bob"));
    first [discriminate | vm_compute; reflexivity].
Defined.

Lemma object_recipient_unreachable_witness :
  (on_message MoreFrames.JSON_parse 1 MoreFrames.offer_object_text
     (run MoreFrames.JSON_parse MoreFrames.object_registered initial).1).2
  = if is_open
         (run MoreFrames.JSON_parse MoreFrames.object_registered initial).1 1
    then [(1, SendJSON (error_envelope
                          (field MoreFrames.offer_object_data "from")))]
    else [].
Proof.
  apply (object_recipient_unreachable MoreFrames.JSON_parse
           MoreFrames.object_registered 1 MoreFrames.offer_object_text
           MoreFrames.offer_object_data); vm_compute; reflexivity.
Defined.

Lemma markMessagesAsRead_marks_witness :
  (∀ k, getMessage k (markMessagesAsRead 1 1 Store.sample)
        = (λ m, if decide (Message.chatId m = 1%N)
                then marked 1 m else m) <$> getMessage k Store.sample)
  ∧ (messages (markMessagesAsRead 1 1 Store.sample)).*1
    = (messages Store.sample).*1
  ∧ chats (markMessagesAsRead 1 1 Store.sample) = chats Store.sample
  ∧ currentMessageId (markMessagesAsRead 1 1 Store.sample)
    = currentMessageId Store.sample
  ∧ (∀ m, m ∈ getMessagesByChat 1 (markMessagesAsRead 1 1 Store.sample) →
       Message.senderId m ≠ 1%N → Message.isRead m = Some true).
Proof.
  apply (markMessagesAsRead_marks 1 1 Store.sample).
  apply table_okb_ok. vm_compute. reflexivity.
Defined.

Lemma store_ok_preserved_witness :
  store_ok (perform (CreateMessage Store.late_reply) Store.sample).
Proof.
  apply (store_ok_preserved (CreateMessage Store.late_reply) Store.sample).
  - apply store_okb_ok. vm_compute. reflexivity.
  - vm_compute. reflexivity.
Defined.

Lemma createExpert_round_trip_witness :
  Expert.id (createExpert (InsertExpert.mk 1 None []) Store.sample).1
  = currentExpertId Store.sample
  ∧ getExpert (currentExpertId Store.sample) Store.sample = None
  ∧ getExpert (currentExpertId Store.sample)
      (createExpert (InsertExpert.mk 1 None []) Store.sample).2
    = Some (createExpert (InsertExpert.mk 1 None []) Store.sample).1
  ∧ (∀ id, id ≠ currentExpertId Store.sample →
       getExpert id (createExpert (InsertExpert.mk 1 None []) Store.sample).2
       = getExpert id Store.sample)
  ∧ getAllExperts (createExpert (InsertExpert.mk 1 None []) Store.sample).2
    = getAllExperts Store.sample
      ++ [(createExpert (InsertExpert.mk 1 None []) Store.sample).1]
  ∧ currentExpertId (createExpert (InsertExpert.mk 1 None []) Store.sample).2
    = (currentExpertId Store.sample + 1)%N.
Proof.
  apply (createExpert_round_trip (InsertExpert.mk 1 None []) Store.sample).
  - apply table_okb_ok. vm_compute. reflexivity.
  - vm_compute. reflexivity.
Defined.

Lemma getExpertsByCategory_spec_witness :
  NoDup (getExpertsByCategory 1 Store.sample)
  ∧ ∀ expert,
      expert ∈ getExpertsByCategory 1 Store.sample
      ↔ getExpert (Expert.id expert) Store.sample = Some expert
        ∧ ∃ advice, advice ∈ getAllAdvices Store.sample
            ∧ Advice.categoryId advice = 1%N
            ∧ Advice.expertId advice = Expert.id expert.
Proof.
  apply (getExpertsByCategory_spec 1 Store.sample).
  apply table_okb_ok. vm_compute. reflexivity.
Defined.

Lemma createUser_keeps_older_user_witness :
  getUser (User.id (createUser (InsertUser.mk "asha" []) Store.sample).1)
    (createUser (InsertUser.mk "asha" []) Store.sample).2
  = Some (createUser (InsertUser.mk "asha" []) Store.sample).1
  ∧ getUserByUsername "asha"
      (createUser (InsertUser.mk "asha" []) Store.sample).2
    = match getUserByUsername "asha" Store.sample with
      | Some user => Some user
      | None =>
          if String.eqb (InsertUser.username (InsertUser.mk "asha" [])) "asha"
          then Some (createUser (InsertUser.mk "asha" []) Store.sample).1
          else None
      end.
Proof.
  apply (createUser_keeps_older_user (InsertUser.mk "asha" []) "asha"
           Store.sample).
  - apply table_okb_ok. vm_compute. reflexivity.
  - vm_compute. reflexivity.
Defined.

Lemma createMessage_touches_chat_witness :
  Message.id (createMessage Store.late_reply Store.sample).1
  = currentMessageId Store.sample
  ∧ getMessage (currentMessageId Store.sample) Store.sample = None
  ∧ getMessage (currentMessageId Store.sample)
      (createMessage Store.late_reply Store.sample).2
    = Some (createMessage Store.late_reply Store.sample).1
  ∧ (∀ id, id ≠ currentMessageId Store.sample →
       getMessage id (createMessage Store.late_reply Store.sample).2
       = getMessage id Store.sample)
  ∧ (∀ id, getChat id (createMessage Store.late_reply Store.sample).2
           = (if decide (id = InsertMessage.chatId Store.late_reply)
              then touched (createMessage Store.late_reply Store.sample).1
              else (λ chat, chat)) <$> getChat id Store.sample)
  ∧ (chats (createMessage Store.late_reply Store.sample).2).*1
    = (chats Store.sample).*1.
Proof.
  apply (createMessage_touches_chat Store.late_reply Store.sample).
  - apply table_okb_ok. vm_compute. reflexivity.
  - apply table_okb_ok. vm_compute. reflexivity.
  - vm_compute. reflexivity.
Defined.
End Examples.
